(** * SOFA: operation synthesis and subscription sessions

    A shallow embedding of the two TypeScript modules of the repository:

    - the operation synthesizer ([buildOperation], [buildDocumentNode],
      [resolveField], [resolveSelectionSet], [resolveVariable],
      [getArgumentName]), which walks a GraphQL schema from a root field and
      produces an operation document;
    - the subscription manager ([SubscriptionManager] with [start], [stop],
      [update], [execute], [sendData] and the detached pump).

    JavaScript objects used as dictionaries are finite maps, module-level
    mutable variables are threaded through a small state monad, recursion
    that JavaScript leaves unbounded is bounded by a depth budget, and the
    outcomes of the external collaborators (uuid, graphql's subscribe, the
    HTTP client, and whether parseVariable or the context function fails)
    are inputs of the operations that consult them. *)

From Stdlib Require Import Ascii String List Bool Arith Lia.
From stdpp Require Import base option list strings gmap fin_maps.

(** ** The camelCase of the change-case package

    [changeCase.camel] is [camelCase] of camel-case 3, built on [noCase] of
    no-case 2.  GraphQL names are ASCII ([_A-Za-z0-9]), and so is every
    string the synthesizer hands to it; the definitions below follow the
    package's regular-expression passes on ASCII characters. *)
Module ChangeCase.

Definition code (c : ascii) : nat := nat_of_ascii c.

Definition is_upper (c : ascii) : bool := (65 <=? code c) && (code c <=? 90).
Definition is_lower (c : ascii) : bool := (97 <=? code c) && (code c <=? 122).
Definition is_digit (c : ascii) : bool := (48 <=? code c) && (code c <=? 57).
Definition is_word (c : ascii) : bool := is_upper c || is_lower c || is_digit c.

Definition lower (c : ascii) : ascii :=
  if is_upper c then ascii_of_nat (code c + 32) else c.
Definition upper (c : ascii) : ascii :=
  if is_lower c then ascii_of_nat (code c - 32) else c.

Definition space : ascii := " "%char.
Definition underscore : ascii := "_"%char.

(** [.replace(/([a-z\d])([A-Z])/g, '$1 $2')] *)
Fixpoint split_camel (s : list ascii) : list ascii :=
  match s with
  | a :: ((b :: tl) as rest) =>
      if (is_lower a || is_digit a) && is_upper b
      then a :: space :: b :: split_camel tl
      else a :: split_camel rest
  | _ => s
  end.

(** [.replace(/([A-Z])([A-Z][a-z])/g, '$1 $2')] *)
Fixpoint split_upper (s : list ascii) : list ascii :=
  match s with
  | a :: ((b :: c :: tl) as rest) =>
      if is_upper a && is_upper b && is_lower c
      then a :: space :: b :: c :: split_upper tl
      else a :: split_upper rest
  | _ => s
  end.

(** [.replace(/[^A-Za-z0-9]+/g, replace)], where [replace] yields the empty
    string for a run at index 0 or reaching the end of the string and one
    space otherwise.  [at_start]: nothing precedes the current run;
    [in_run]: a run of non-word characters is being skipped. *)
Fixpoint squeeze (at_start in_run : bool) (s : list ascii) : list ascii :=
  match s with
  | [] => []
  | c :: tl =>
      if is_word c
      then if in_run && negb at_start
           then space :: c :: squeeze false false tl
           else c :: squeeze false false tl
      else squeeze at_start true tl
  end.

Definition noCase (s : list ascii) : list ascii :=
  map lower (squeeze true false (split_upper (split_camel s))).

(** [.replace(/ (?=\d)/g, '_')] *)
Fixpoint number_sep (s : list ascii) : list ascii :=
  match s with
  | a :: ((b :: _) as rest) =>
      if Ascii.eqb a space && is_digit b
      then underscore :: number_sep rest
      else a :: number_sep rest
  | _ => s
  end.

(** [.replace(/ (.)/g, (m, $1) => upperCase($1))] *)
Fixpoint upper_after_space (s : list ascii) : list ascii :=
  match s with
  | a :: ((b :: tl) as rest) =>
      if Ascii.eqb a space
      then upper b :: upper_after_space tl
      else a :: upper_after_space rest
  | _ => s
  end.

Definition camel (s : string) : string :=
  string_of_list_ascii
    (upper_after_space (number_sep (noCase (list_ascii_of_string s)))).

End ChangeCase.

Local Open Scope string_scope.

(** ** The schema

    Types of the schema refer to each other by name, the way a schema's type
    map resolves them; [getType] is that resolution.  A name the type map
    does not declare denotes a scalar (the built-in [ID], [String], [Int],
    ... need no declaration). *)

Inductive GraphQLType : Type :=
  | NamedType (name : string)
  | ListType (ofType : GraphQLType)
  | NonNullType (ofType : GraphQLType).

Record GraphQLArgument := {
  arg_name : string;
  arg_type : GraphQLType;
}.

Record GraphQLField := {
  field_name : string;
  field_type : GraphQLType;
  field_args : list GraphQLArgument;
}.

(** The fields of a type are listed in the order of [getFields()], a
    name-keyed map in declaration order. *)
Inductive GraphQLNamedType : Type :=
  | ScalarType
  | EnumType
  | InputObjectType
  | InterfaceType (fields : list GraphQLField)
  | ObjectType (fields : list GraphQLField)
  | UnionType (types : list string).

Inductive OperationTypeNode : Type := query | mutation | subscription.

Record GraphQLSchema := {
  typeMap : gmap string GraphQLNamedType;
  queryType : option string;
  mutationType : option string;
  subscriptionType : option string;
}.

Definition getType (schema : GraphQLSchema) (name : string) : GraphQLNamedType :=
  default ScalarType (typeMap schema !! name).

(** [t.getFields()] of an object type. *)
Definition getFields (schema : GraphQLSchema) (name : string) : list GraphQLField :=
  match getType schema name with
  | ObjectType fields => fields
  | _ => []
  end.

(** [getNamedType]: strip the list and non-null wrappers. *)
Fixpoint getNamedType (t : GraphQLType) : string :=
  match t with
  | NamedType name => name
  | ListType t' => getNamedType t'
  | NonNullType t' => getNamedType t'
  end.

(** [String(type)]: graphql prints the wrappers. *)
Fixpoint typeToString (t : GraphQLType) : string :=
  match t with
  | NamedType name => name
  | ListType t' => "[" +:+ typeToString t' +:+ "]"
  | NonNullType t' => typeToString t' +:+ "!"
  end.

Definition isScalarType (schema : GraphQLSchema) (name : string) : bool :=
  match getType schema name with ScalarType => true | _ => false end.

Definition isObjectType (schema : GraphQLSchema) (name : string) : bool :=
  match getType schema name with ObjectType _ => true | _ => false end.

Definition isUnionType (schema : GraphQLSchema) (name : string) : bool :=
  match getType schema name with UnionType _ => true | _ => false end.

(** [array.includes(s)] on arrays of strings. *)
Definition includes (l : list string) (s : string) : bool :=
  existsb (String.eqb s) l.

(** ** The document AST *)

Set Warnings "-register-all".

Inductive TypeNode : Type :=
  | NamedTypeNode (name : string)
  | ListTypeNode (type : TypeNode)
  | NonNullTypeNode (type : TypeNode).

Record VariableDefinitionNode := {
  variable_name : string;
  variable_type : TypeNode;
}.

(** An argument of a field selection: its name and the variable it is
    bound to. *)
Record ArgumentNode := {
  argument_name : string;
  argument_variable : string;
}.

(** [arguments] and [selectionSet] are optional keys of a field node. *)
Inductive SelectionNode : Type :=
  | FieldNode (name : string) (arguments : option (list ArgumentNode))
              (selectionSet : option (list SelectionNode))
  | InlineFragmentNode (typeCondition : string) (selectionSet : list SelectionNode).

Record OperationDefinitionNode := {
  operation : OperationTypeNode;
  operation_name : string;
  variableDefinitions : list VariableDefinitionNode;
  selections : list SelectionNode;
}.

Record DocumentNode := {
  definitions : list OperationDefinitionNode;
}.

Definition kindToString (kind : OperationTypeNode) : string :=
  match kind with
  | query => "query"
  | mutation => "mutation"
  | subscription => "subscription"
  end.

(** ** The synthesizer's module state

    [operationVariables] is the module-level accumulator and [visitedTypes]
    the module-level record of the types being expanded.  [visitedTypes] is
    created as the object literal [{}], so a key it does not own is looked up
    on [Object.prototype]: reading the name of an inherited member yields a
    function, which the guard [if (found)] takes for true.  (GraphQL
    reserves the names that begin with two underscores, so the walk writes
    under none of those.) *)

Definition object_prototype_keys : list string :=
  [ "constructor"; "hasOwnProperty"; "isPrototypeOf"; "propertyIsEnumerable";
    "toLocaleString"; "toString"; "valueOf";
    "__defineGetter__"; "__defineSetter__"; "__lookupGetter__";
    "__lookupSetter__"; "__proto__" ].

Record WalkState := {
  operationVariables : list VariableDefinitionNode;
  visitedTypes : gmap string bool;
}.

(** The truth value of [visitedTypes[key]]. *)
Definition found (visited : gmap string bool) (key : string) : bool :=
  match visited !! key with
  | Some b => b
  | None => includes object_prototype_keys key
  end.

(** A computation over the module state; [None] is a recursion that has
    exhausted its depth budget. *)
Definition Walk (A : Type) : Type := WalkState -> option (A * WalkState).

Definition wret {A} (a : A) : Walk A := fun st => Some (a, st).

Definition wbind {A B} (m : Walk A) (k : A -> Walk B) : Walk B :=
  fun st =>
    match m st with
    | Some (a, st') => k a st'
    | None => None
    end.

Notation "'let*' x ':=' m 'in' k" := (wbind m (fun x => k))
  (at level 10, x name, m at level 100, k at level 200).

(** [array.map(f)] with an effectful callback: left to right. *)
Fixpoint wmap {A B} (f : A -> Walk B) (l : list A) : Walk (list B) :=
  match l with
  | [] => wret []
  | x :: l' =>
      let* y := f x in
      let* ys := wmap f l' in
      wret (y :: ys)
  end.

(** [operationVariables.push(...)] as a function of the state. *)
Definition pushVariables (vars : list VariableDefinitionNode) (st : WalkState)
  : WalkState :=
  {| operationVariables := (operationVariables st ++ vars)%list;
     visitedTypes := visitedTypes st |}.

(** [operationVariables = []] as a function of the state. *)
Definition resetVariables (st : WalkState) : WalkState :=
  {| operationVariables := []; visitedTypes := visitedTypes st |}.

(** [visitedTypes[name] = b] as a function of the state. *)
Definition markVisited (name : string) (b : bool) (st : WalkState) : WalkState :=
  {| operationVariables := operationVariables st;
     visitedTypes := <[name := b]> (visitedTypes st) |}.

Definition addOperationVariable (variable : VariableDefinitionNode) : Walk unit :=
  fun st => Some (tt, pushVariables [variable] st).

Definition resetOperationVariables : Walk unit :=
  fun st => Some (tt, resetVariables st).

Definition getOperationVariables : Walk (list VariableDefinitionNode) :=
  fun st => Some (operationVariables st, st).

(** The loop that fills [filtered]: the fields of an object type, without
    those for which [visitedTypes[String(field.type)]] is true. *)
Definition unvisitedFields (fields : list GraphQLField) : Walk (list GraphQLField) :=
  fun st =>
    Some (List.filter
            (fun field =>
               negb (found (visitedTypes st) (typeToString (field_type field))))
            fields,
          st).

Definition setVisited (name : string) (b : bool) : Walk unit :=
  fun st => Some (tt, markVisited name b st).

(** ** The synthesizer *)

Definition buildOperationName (name : string) : string := ChangeCase.camel name.

Fixpoint resolveVariableType (type : GraphQLType) : TypeNode :=
  match type with
  | ListType t => ListTypeNode (resolveVariableType t)
  | NonNullType t => NonNullTypeNode (resolveVariableType t)
  | NamedType name => NamedTypeNode name
  end.

(** [name || arg.name]: an absent or empty [name] falls back to the
    argument's own. *)
Definition resolveVariable (arg : GraphQLArgument) (name : option string)
  : VariableDefinitionNode :=
  {| variable_name :=
       match name with
       | Some n => if String.eqb n "" then arg_name arg else n
       | None => arg_name arg
       end;
     variable_type := resolveVariableType (arg_type arg) |}.

(** [[...path, name].join('_')], camel-cased. *)
Definition getArgumentName (name : string) (path : list string) : string :=
  ChangeCase.camel (String.concat "_" (path ++ [name])%list).

(** [path[path.length - 1]] inside a template string. *)
Definition lastOfPath (path : list string) : string :=
  List.last path "undefined".

(** The selection the collapse of a model leaves: [{ id }]. *)
Definition idField : SelectionNode := FieldNode "id" None None.

(** What a JavaScript call completes with. *)
Inductive Completion (A : Type) : Type :=
  | Normal (a : A)
  | Throw (message : string).
Arguments Normal {A} a.
Arguments Throw {A} message.

Section Synthesizer.

Variable schema : GraphQLSchema.
Variable models : list string.
Variable ignore : list string.

(** The callback of [field.args.map] in [resolveField]. *)
Definition resolveArgument (firstCall : bool) (path : list string)
    (arg : GraphQLArgument) : Walk ArgumentNode :=
  let* _ :=
    if firstCall then wret tt
    else addOperationVariable
           (resolveVariable arg (Some (getArgumentName (arg_name arg) path))) in
  wret {| argument_name := arg_name arg;
          argument_variable := getArgumentName (arg_name arg) path |}.

Definition isIgnored (parent type : string) (path : list string) : bool :=
  includes ignore type || includes ignore (parent +:+ "." +:+ lastOfPath path).

Definition isModel (type : string) : bool := includes models type.

(** [resolveSelectionSet], with the recursive calls to [resolveField] going
    through [rec].  A type that is neither a union nor an object yields
    [undefined]. *)
Definition resolveSelectionSet
    (rec : string -> GraphQLField -> bool -> list string -> Walk SelectionNode)
    (parent type : string) (firstCall : bool) (path : list string)
  : Walk (option (list SelectionNode)) :=
  match getType schema type with
  | UnionType types =>
      let* frags :=
        wmap (fun t =>
                let* sels :=
                  wmap (fun field =>
                          rec t field false (path ++ [field_name field])%list)
                       (getFields schema t) in
                wret (InlineFragmentNode t sels)) types in
      wret (Some frags)
  | ObjectType fields =>
      if negb firstCall && isModel type && negb (isIgnored parent type path)
      then wret (Some [idField])
      else
        let* filtered := unvisitedFields fields in
        let* _ := setVisited type true in
        let* sels :=
          wmap (fun field =>
                  rec type field false (path ++ [field_name field])%list) filtered in
        let* _ := setVisited type false in
        wret (Some sels)
  | _ => wret None
  end.

(** [resolveField]; [fuel] bounds the nesting depth of the recursion. *)
Fixpoint resolveField (fuel : nat) (type : string) (field : GraphQLField)
    (firstCall : bool) (path : list string) : Walk SelectionNode :=
  match fuel with
  | O => fun _ => None
  | S fuel' =>
      let namedType := getNamedType (field_type field) in
      let* args := wmap (resolveArgument firstCall path) (field_args field) in
      if negb (isScalarType schema namedType)
      then
        let* selectionSet :=
          resolveSelectionSet (resolveField fuel') type namedType
            firstCall (path ++ [field_name field])%list in
        wret (FieldNode (field_name field) (Some args) selectionSet)
      else wret (FieldNode (field_name field) (Some args) None)
  end.

Definition rootType (kind : OperationTypeNode) : option string :=
  match kind with
  | query => queryType schema
  | mutation => mutationType schema
  | subscription => subscriptionType schema
  end.

Definition findField (type fieldName : string) : option GraphQLField :=
  List.find (fun f => String.eqb (field_name f) fieldName) (getFields schema type).

(** [buildDocumentNode].  Reading [getFields] of a missing root type, or
    [args] of a missing field, is a TypeError. *)
Definition buildDocumentNode (fuel : nat) (fieldName : string)
    (kind : OperationTypeNode) : Walk (Completion DocumentNode) :=
  match rootType kind with
  | None => wret (Throw "TypeError")
  | Some type =>
      match findField type fieldName with
      | None => wret (Throw "TypeError")
      | Some field =>
          let operationName :=
            buildOperationName (fieldName +:+ "_" +:+ kindToString kind) in
          let* _ :=
            wmap (fun arg => addOperationVariable (resolveVariable arg None))
                 (field_args field) in
          let* root := resolveField fuel type field true [] in
          wret (Normal
                  {| definitions :=
                       [ {| operation := kind;
                            operation_name := operationName;
                            variableDefinitions := [];
                            selections := [root] |} ] |})
      end
  end.

(** [document.definitions[0].variableDefinitions = [...operationVariables]] *)
Definition attachVariables (variables : list VariableDefinitionNode)
    (document : DocumentNode) : DocumentNode :=
  match definitions document with
  | op :: rest =>
      {| definitions :=
           {| operation := operation op;
              operation_name := operation_name op;
              variableDefinitions := variables;
              selections := selections op |} :: rest |}
  | [] => document
  end.

Definition buildOperation (fuel : nat) (kind : OperationTypeNode)
    (field : string) : Walk (Completion DocumentNode) :=
  let* _ := resetOperationVariables in
  let* result := buildDocumentNode fuel field kind in
  match result with
  | Throw e => wret (Throw e)
  | Normal document =>
      let* variables := getOperationVariables in
      let* _ := resetOperationVariables in
      wret (Normal (attachVariables variables document))
  end.

End Synthesizer.

(** The module state at load time. *)
Definition initialWalkState : WalkState :=
  {| operationVariables := []; visitedTypes := ∅ |}.

(** ** JavaScript values the subscription manager handles *)

Inductive JsValue : Type :=
  | JsUndefined
  | JsNull
  | JsBoolean (b : bool)
  | JsNumber (n : nat)
  | JsString (s : string)
  | JsFunction (name : string)
  | JsNode (node : VariableDefinitionNode)
  | JsArray (items : list JsValue)
  | JsObject (props : list (string * JsValue)).

(** Members of [Array.prototype] (ES2019); [length] is an own property. *)
Definition array_prototype_keys : list string :=
  [ "concat"; "copyWithin"; "entries"; "every"; "fill"; "filter"; "find";
    "findIndex"; "flat"; "flatMap"; "forEach"; "includes"; "indexOf"; "join";
    "keys"; "lastIndexOf"; "map"; "pop"; "push"; "reduce"; "reduceRight";
    "reverse"; "shift"; "slice"; "some"; "sort"; "splice"; "unshift";
    "values" ].

Definition inherited (keys : list string) (key : string) : JsValue :=
  if includes keys key then JsFunction key else JsUndefined.

(** The decimal numeral of [n] with at most [digits] digits more. *)
Fixpoint numeral_aux (digits n : nat) (acc : string) : string :=
  let acc' := String (ascii_of_nat (48 + n mod 10)) acc in
  match digits with
  | O => acc'
  | S digits' => if Nat.eqb (n / 10) 0 then acc' else numeral_aux digits' (n / 10) acc'
  end.

Definition numeral (n : nat) : string := numeral_aux n n "".

(** [items[key]] for an array index written canonically. *)
Definition array_index (items : list JsValue) (key : string) : option JsValue :=
  match List.find (fun i => String.eqb key (numeral i)) (seq 0 (length items)) with
  | Some i => nth_error items i
  | None => None
  end.

Fixpoint own_property (props : list (string * JsValue)) (key : string)
  : option JsValue :=
  match props with
  | [] => None
  | (k, v) :: rest => if String.eqb k key then Some v else own_property rest key
  end.

(** [value[key]] on a value of type [Record<string, any>]: own properties
    first, then the prototype chain. *)
Definition js_get (value : JsValue) (key : string) : JsValue :=
  match value with
  | JsArray items =>
      match array_index items key with
      | Some v => v
      | None =>
          if String.eqb key "length" then JsNumber (length items)
          else inherited (array_prototype_keys ++ object_prototype_keys)%list key
      end
  | JsObject props =>
      match own_property props key with
      | Some v => v
      | None => inherited object_prototype_keys key
      end
  | _ => JsUndefined
  end.

Definition is_undefined (v : JsValue) : bool :=
  match v with JsUndefined => true | _ => false end.

(** ** The subscription manager *)

Definition ID := string.
Definition SubscriptionFieldName := string.

Record StartSubscriptionEvent := {
  start_subscription : SubscriptionFieldName;
  start_variables : JsValue;
  start_url : string;
}.

Record UpdateSubscriptionEvent := {
  update_id : ID;
  update_variables : JsValue;
}.

Record BuiltOperation := {
  built_operationName : string;
  built_document : DocumentNode;
  built_variables : list VariableDefinitionNode;
}.

(** A stream handle: [iterator_return] tells whether it has a [return]
    method. *)
Record AsyncIterator := {
  iterator_handle : nat;
  iterator_return : bool;
}.

Record StoredClient := {
  client_name : SubscriptionFieldName;
  client_url : string;
  client_iterator : AsyncIterator;
}.

(** [sofa.context] is a value or a function of [{ req, res }]. *)
Inductive SofaContext : Type :=
  | ContextValue (value : JsValue)
  | ContextFn (fn : JsValue -> JsValue -> JsValue).

Record Sofa := {
  sofa_schema : GraphQLSchema;
  sofa_models : list string;
  sofa_ignore : list string;
  sofa_context : SofaContext;
}.

(** How the awaited part of one call of [execute] ends.  [subscribe] of
    graphql answers a stream or a terminal result, or it rejects.  Before it
    is reached, [parseVariable] may throw and the awaited context function
    may throw or reject: that is [Thrown], and [subscribe] is then not
    called.  [parseVariable] and the context function are taken at the
    values they give when they return. *)
Inductive Execution : Type :=
  | AsyncIterable (iterator : AsyncIterator)
  | ExecutionResult (result : JsValue)
  | Thrown (error : string)
  | Rejected (error : string).

(** The arguments of one call of [subscribe]. *)
Record SubscribeArgs := {
  subscribe_document : DocumentNode;
  subscribe_operationName : string;
  subscribe_variableValues : gmap string JsValue;
  subscribe_contextValue : JsValue;
}.

(** What the manager does to the outside world, oldest first. *)
Inductive Effect : Type :=
  | Subscribed (args : SubscribeArgs)
  | Returned (iterator : AsyncIterator)
  | Posted (url : string) (json : JsValue)
  | Logged (message : string)
  | UnhandledRejection (message : string).

Record SubscriptionManager := {
  sofa : Sofa;
  operations : gmap SubscriptionFieldName BuiltOperation;
  clients : gmap ID StoredClient;
  effects : list Effect;
}.

Definition setClients (clients' : gmap ID StoredClient) (m : SubscriptionManager)
  : SubscriptionManager :=
  {| sofa := sofa m; operations := operations m; clients := clients';
     effects := effects m |}.

Definition emit (e : Effect) (m : SubscriptionManager) : SubscriptionManager :=
  {| sofa := sofa m; operations := operations m; clients := clients m;
     effects := (effects m ++ [e])%list |}.

Definition notAvailable (name : SubscriptionFieldName) : string :=
  "Subscription '" +:+ name +:+ "' is not available".

Definition doesNotExist (id : ID) : string :=
  "Subscription with ID '" +:+ id +:+ "' does not exist".

(** The two named failures of the specification are these errors. *)
Definition UnknownSubscriptionField {A} (name : SubscriptionFieldName)
  : Completion A := Throw (notAvailable name).
Definition UnknownSessionId {A} (id : ID) : Completion A :=
  Throw (doesNotExist id).

(** What [start] and [update] answer: [{ id }] or the terminal result. *)
Inductive StartResponse : Type :=
  | Started (id : ID)
  | Terminal (result : JsValue).

Section Manager.

(** [parseVariable] of ./parse, which is not among the sources, coerces a
    supplied value to the variable's type. *)
Variable parseVariable : JsValue -> VariableDefinitionNode -> GraphQLSchema -> JsValue.

(** The [reduce] of [execute] over the stored variable definitions. *)
Definition bindVariable (m : SubscriptionManager) (name : SubscriptionFieldName)
    (variables : JsValue) (values : gmap string JsValue)
    (variable : VariableDefinitionNode) : gmap string JsValue :=
  let value :=
    parseVariable (js_get variables (variable_name variable)) variable
                  (sofa_schema (sofa m)) in
  if is_undefined value then values else <[name := value]> values.

Definition variableValues (m : SubscriptionManager) (name : SubscriptionFieldName)
    (variables : JsValue) : gmap string JsValue :=
  match operations m !! name with
  | Some op => fold_left (bindVariable m name variables) (built_variables op) ∅
  | None => ∅
  end.

Definition resolveContext (m : SubscriptionManager) (req res : JsValue) : JsValue :=
  match sofa_context (sofa m) with
  | ContextFn fn => fn req res
  | ContextValue value => value
  end.

(** [stop]: the body has no [await], so it runs to its end when called. *)
Definition stop (id : ID) (m : SubscriptionManager)
  : Completion ID * SubscriptionManager :=
  match clients m !! id with
  | None => (UnknownSessionId id, m)
  | Some execution =>
      let m1 := if iterator_return (client_iterator execution)
                then emit (Returned (client_iterator execution)) m
                else m in
      (Normal id, setClients (delete id (clients m1)) m1)
  end.

(** A call [this.stop(id)] whose promise nobody awaits. *)
Definition detachedStop (id : ID) (m : SubscriptionManager) : SubscriptionManager :=
  match stop id m with
  | (Normal _, m') => m'
  | (Throw e, m') => emit (UnhandledRejection e) m'
  end.

(** [execute], up to the point where the pump is detached.  [execution] is
    how the awaited calls of this run end.  The result is [None] for
    [undefined]; an error thrown by [parseVariable] or the context function,
    or a rejection of [subscribe], is thrown on to the caller, and nothing
    is stored. *)
Definition execute (execution : Execution) (id : ID) (document : DocumentNode)
    (name : SubscriptionFieldName) (url : string) (operationName : string)
    (variables : JsValue) (req res : JsValue) (m : SubscriptionManager)
  : Completion (option JsValue) * SubscriptionManager :=
  let values := variableValues m name variables in
  let C := resolveContext m req res in
  let m1 := emit (Subscribed {| subscribe_document := document;
                                subscribe_operationName := operationName;
                                subscribe_variableValues := values;
                                subscribe_contextValue := C |}) m in
  match execution with
  | Thrown e => (Throw e, m)
  | Rejected e => (Throw e, m1)
  | AsyncIterable iterator =>
      (Normal None,
       setClients (<[id := {| client_name := name; client_url := url;
                              client_iterator := iterator |}]> (clients m1)) m1)
  | ExecutionResult result => (Normal (Some result), m1)
  end.

(** [start]; [id] is what [uuid()] yields for this call.  The [variables]
    handed to [execute] are those destructured from the stored operation.
    What [execute] throws goes on to the caller. *)
Definition start (id : ID) (execution : Execution) (event : StartSubscriptionEvent)
    (req res : JsValue) (m : SubscriptionManager)
  : Completion StartResponse * SubscriptionManager :=
  let name := start_subscription event in
  match operations m !! name with
  | None => (UnknownSubscriptionField name, m)
  | Some op =>
      let '(result, m') :=
        execute execution id (built_document op) name (start_url event)
                (built_operationName op)
                (JsArray (map JsNode (built_variables op)))
                req res m in
      match result with
      | Throw e => (Throw e, m')
      | Normal (Some r) => (Normal (Terminal r), m')
      | Normal None => (Normal (Started id), m')
      end
  end.

(** [update]: the [stop] is called without [await]. *)
Definition update (id' : ID) (execution : Execution) (event : UpdateSubscriptionEvent)
    (req res : JsValue) (m : SubscriptionManager)
  : Completion StartResponse * SubscriptionManager :=
  let id := update_id event in
  match clients m !! id with
  | None => (UnknownSessionId id, m)
  | Some client =>
      let m1 := detachedStop id m in
      start id' execution
            {| start_subscription := client_name client;
               start_variables := update_variables event;
               start_url := client_url client |}
            req res m1
  end.

(** *** The detached pump of a session *)

(** The rejection handler of the pump: [console.log(e); this.stop(id)]. *)
Definition pumpFailed (id : ID) (e : string) (m : SubscriptionManager)
  : SubscriptionManager :=
  detachedStop id (emit (Logged e) m).

(** The completion handler of the pump: [this.stop(id)]. *)
Definition pumpCompleted (id : ID) (m : SubscriptionManager) : SubscriptionManager :=
  detachedStop id m.

(** [sendData]; [delivered] tells whether the push succeeds. *)
Definition sendData (id : ID) (result : JsValue) (delivered : Completion unit)
    (m : SubscriptionManager) : Completion unit * SubscriptionManager :=
  match clients m !! id with
  | None => (UnknownSessionId id, m)
  | Some client => (delivered, emit (Posted (client_url client) result) m)
  end.

(** One value of the stream: deliver it; a failure ends the pump. *)
Definition pumpValue (id : ID) (result : JsValue) (delivered : Completion unit)
    (m : SubscriptionManager) : SubscriptionManager :=
  match sendData id result delivered m with
  | (Normal _, m') => m'
  | (Throw e, m') => pumpFailed id e m'
  end.

End Manager.

(** *** Construction *)

(** Modelled from the spec: [getOperationInfo] of ./ast is not among the
    sources.  The specification's operation document has one operation
    definition carrying a name and an ordered list of variable definitions;
    this reads the two out of the first definition. *)
Definition getOperationInfo (document : DocumentNode)
  : option (string * list VariableDefinitionNode) :=
  match definitions document with
  | op :: _ => Some (operation_name op, variableDefinitions op)
  | [] => None
  end.

(** The loop of [buildOperations] over the fields of the subscription type. *)
Fixpoint buildOperationsLoop (fuel : nat) (s : Sofa) (fields : list GraphQLField)
    (acc : gmap SubscriptionFieldName BuiltOperation)
  : Walk (Completion (gmap SubscriptionFieldName BuiltOperation)) :=
  match fields with
  | [] => wret (Normal acc)
  | field :: rest =>
      let* result :=
        buildOperation (sofa_schema s) (sofa_models s) (sofa_ignore s) fuel
                       subscription (field_name field) in
      match result with
      | Throw e => wret (Throw e)
      | Normal document =>
          match getOperationInfo document with
          | None => wret (Throw "TypeError")
          | Some (operationName, variables) =>
              buildOperationsLoop fuel s rest
                (<[field_name field :=
                     {| built_operationName := operationName;
                        built_document := document;
                        built_variables := variables |}]> acc)
          end
      end
  end.

Definition buildOperations (fuel : nat) (s : Sofa)
  : Walk (Completion (gmap SubscriptionFieldName BuiltOperation)) :=
  match subscriptionType (sofa_schema s) with
  | None => wret (Normal ∅)
  | Some type => buildOperationsLoop fuel s (getFields (sofa_schema s) type) ∅
  end.

(** [new SubscriptionManager(sofa)] *)
Definition newSubscriptionManager (fuel : nat) (s : Sofa)
  : Walk (Completion SubscriptionManager) :=
  let* result := buildOperations fuel s in
  match result with
  | Throw e => wret (Throw e)
  | Normal ops =>
      wret (Normal {| sofa := s; operations := ops; clients := ∅; effects := [] |})
  end.

(** ** Properties of documents and states used in the statements *)

(** A field selection of [field] under [parent] collapses: the field's named
    type is an object type of the Model Set that is not ignored, neither by
    its name nor by the string [Parent.field]. *)
Definition collapses (schema : GraphQLSchema) (models ignore : list string)
    (parent : string) (field : GraphQLField) : bool :=
  let type := getNamedType (field_type field) in
  isObjectType schema type && includes models type
  && negb (includes ignore type
           || includes ignore (parent +:+ "." +:+ field_name field)).

Definition selectionName (sel : SelectionNode) : string :=
  match sel with
  | FieldNode name _ _ => name
  | InlineFragmentNode type _ => type
  end.

(** Below the root, every field selection of a collapsing field has the
    selection set [{ id }] and nothing else, and the other field selections
    are checked member by member; an inline fragment selects every field of
    its member type, whether or not the member is a model. *)
Inductive Collapsed (schema : GraphQLSchema) (models ignore : list string)
  : string -> SelectionNode -> Prop :=
  | Collapsed_model parent field args :
      In field (getFields schema parent) ->
      collapses schema models ignore parent field = true ->
      Collapsed schema models ignore parent
        (FieldNode (field_name field) args (Some [idField]))
  | Collapsed_other parent field args selectionSet :
      In field (getFields schema parent) ->
      collapses schema models ignore parent field = false ->
      (forall sels, selectionSet = Some sels ->
         Forall (Collapsed schema models ignore
                   (getNamedType (field_type field))) sels) ->
      Collapsed schema models ignore parent
        (FieldNode (field_name field) args selectionSet)
  | Collapsed_fragment parent type sels :
      map selectionName sels = map field_name (getFields schema type) ->
      Forall (Collapsed schema models ignore type) sels ->
      Collapsed schema models ignore parent (InlineFragmentNode type sels).



(** The variable definitions a field occurrence below the root contributes
    for its own arguments. *)
Definition argumentVariables (path : list string) (field : GraphQLField)
  : list VariableDefinitionNode :=
  map (fun arg => resolveVariable arg (Some (getArgumentName (arg_name arg) path)))
      (field_args field).

(** The variable definitions of the root field's arguments. *)
Definition rootVariables (field : GraphQLField) : list VariableDefinitionNode :=
  map (fun arg => resolveVariable arg None) (field_args field).

(** The arguments of the root field's selection. *)
Definition rootArguments (field : GraphQLField) : list ArgumentNode :=
  map (fun arg => {| argument_name := arg_name arg;
                     argument_variable := ChangeCase.camel (arg_name arg) |})
      (field_args field).

(** The accumulator has only grown. *)
Definition Extends (st st' : WalkState) : Prop :=
  exists rest, operationVariables st' = (operationVariables st ++ rest)%list.

(** Every entry of [visitedTypes] is as it was, or belongs to an object type
    of the schema and is false. *)
Definition Restored (schema : GraphQLSchema) (st st' : WalkState) : Prop :=
  forall key,
    visitedTypes st' !! key = visitedTypes st !! key
    \/ (visitedTypes st' !! key = Some false /\ isObjectType schema key = true).

Definition Unwinds (schema : GraphQLSchema) (st st' : WalkState) : Prop :=
  Extends st st' /\ Restored schema st st'.



(** Whatever [m] answers, [m'] answers too. *)
Definition Below {A} (m m' : Walk A) : Prop :=
  forall st r, m st = Some r -> m' st = Some r.

(** The names of the variable definitions of a document, in order. *)
Definition variableNames (document : DocumentNode) : list string :=
  flat_map (fun op => map variable_name (variableDefinitions op))
           (definitions document).

(** ** Schemas and sessions of the scenarios *)

Module Scenario.

Definition plain (name : string) (type : GraphQLType) : GraphQLField :=
  {| field_name := name; field_type := type; field_args := [] |}.

Definition subscriptionSchema (types : list (string * GraphQLNamedType))
  : GraphQLSchema :=
  {| typeMap := list_to_map types;
     queryType := None;
     mutationType := None;
     subscriptionType := Some "Subscription" |}.

(** [subscription { messageAdded(roomId: ID!): Message }] with
    [Message { id text author: User }]; the fields of [User] are left open. *)
Definition messageAdded : GraphQLField :=
  {| field_name := "messageAdded";
     field_type := NamedType "Message";
     field_args := [ {| arg_name := "roomId";
                        arg_type := NonNullType (NamedType "ID") |} ] |}.

Definition messageSchema (userFields : list GraphQLField) : GraphQLSchema :=
  subscriptionSchema
    [ ("Subscription", ObjectType [messageAdded]);
      ("Message", ObjectType [ plain "id" (NamedType "ID");
                               plain "text" (NamedType "String");
                               plain "author" (NamedType "User") ]);
      ("User", ObjectType userFields) ].

Definition roomId : VariableDefinitionNode :=
  {| variable_name := "roomId";
     variable_type := NonNullTypeNode (NamedTypeNode "ID") |}.

(** [subscription messageAddedSubscription($roomId: ID!)
      { messageAdded(roomId: $roomId) { id text author { id } } }] *)
Definition messageDocument : DocumentNode :=
  {| definitions :=
       [ {| operation := subscription;
            operation_name := "messageAddedSubscription";
            variableDefinitions := [roomId];
            selections :=
              [ FieldNode "messageAdded"
                  (Some [ {| argument_name := "roomId";
                             argument_variable := "roomId" |} ])
                  (Some [ FieldNode "id" (Some []) None;
                          FieldNode "text" (Some []) None;
                          FieldNode "author" (Some []) (Some [idField]) ]) ] |} ] |}.

(** The same subscription with the argument spelled [room_id]. *)
Definition snakeSchema : GraphQLSchema :=
  subscriptionSchema
    [ ("Subscription",
       ObjectType [ {| field_name := "messageAdded";
                       field_type := NamedType "Message";
                       field_args := [ {| arg_name := "room_id";
                                          arg_type := NonNullType (NamedType "ID") |} ] |} ]);
      ("Message", ObjectType [ plain "id" (NamedType "ID");
                               plain "text" (NamedType "String") ]) ].

(** [A { b: B }] and [B { a: A }], reached from the root field [a: A]. *)
Definition cyclicSchema : GraphQLSchema :=
  subscriptionSchema
    [ ("Subscription", ObjectType [ plain "a" (NamedType "A") ]);
      ("A", ObjectType [ plain "id" (NamedType "ID"); plain "b" (NamedType "B") ]);
      ("B", ObjectType [ plain "id" (NamedType "ID"); plain "a" (NamedType "A") ]) ].

(** [User { id friends: [User] }], reached from the root field
    [userChanged: User]. *)
Definition friends : GraphQLField := plain "friends" (ListType (NamedType "User")).

Definition friendsSchema : GraphQLSchema :=
  subscriptionSchema
    [ ("Subscription", ObjectType [ plain "userChanged" (NamedType "User") ]);
      ("User", ObjectType [ plain "id" (NamedType "ID"); friends ]) ].

(** [union Entry = Folder] with [Folder { name contents: Entry }], reached
    from the root field [entry: Entry]. *)
Definition contents : GraphQLField := plain "contents" (NamedType "Entry").

Definition entrySchema : GraphQLSchema :=
  subscriptionSchema
    [ ("Subscription", ObjectType [ plain "entry" (NamedType "Entry") ]);
      ("Entry", UnionType ["Folder"]);
      ("Folder", ObjectType [ plain "name" (NamedType "String"); contents ]) ].

(** [union SearchResult = User] under the root field [found: SearchResult],
    with [User { id name }]. *)
Definition searchSchema : GraphQLSchema :=
  subscriptionSchema
    [ ("Subscription", ObjectType [ plain "found" (NamedType "SearchResult") ]);
      ("SearchResult", UnionType ["User"]);
      ("User", ObjectType [ plain "id" (NamedType "ID");
                            plain "name" (NamedType "String") ]) ].



(** An object type named [constructor], reached once through a non-null
    field and once through a plain one. *)
Definition constructorSchema : GraphQLSchema :=
  subscriptionSchema
    [ ("Subscription", ObjectType [ plain "r" (NamedType "R") ]);
      ("R", ObjectType [ plain "x" (NonNullType (NamedType "constructor"));
                         plain "y" (NamedType "constructor") ]);
      ("constructor",
       ObjectType [ {| field_name := "f";
                       field_type := NamedType "Int";
                       field_args := [ {| arg_name := "a";
                                          arg_type := NamedType "Int" |} ] |} ]) ].

(** The documents synthesized for these schemas. *)
Definition operationOf (name : string) (variables : list VariableDefinitionNode)
    (root : SelectionNode) : DocumentNode :=
  {| definitions :=
       [ {| operation := subscription;
            operation_name := name;
            variableDefinitions := variables;
            selections := [root] |} ] |}.

Definition leaf (name : string) : SelectionNode := FieldNode name (Some []) None.

Definition snakeDocument : DocumentNode :=
  operationOf "messageAddedSubscription"
    [ {| variable_name := "room_id";
         variable_type := NonNullTypeNode (NamedTypeNode "ID") |} ]
    (FieldNode "messageAdded"
       (Some [ {| argument_name := "room_id"; argument_variable := "roomId" |} ])
       (Some [ leaf "id"; leaf "text" ])).

Definition cyclicDocument : DocumentNode :=
  operationOf "aSubscription" []
    (FieldNode "a" (Some [])
       (Some [ leaf "id";
               FieldNode "b" (Some []) (Some [ leaf "id" ]) ])).

Definition searchDocument : DocumentNode :=
  operationOf "foundSubscription" []
    (FieldNode "found" (Some [])
       (Some [ InlineFragmentNode "User" [ leaf "id"; leaf "name" ] ])).




Definition constructorSelection (variable : string) : SelectionNode :=
  FieldNode "f" (Some [ {| argument_name := "a"; argument_variable := variable |} ])
            None.

Definition intVariable (name : string) : VariableDefinitionNode :=
  {| variable_name := name; variable_type := NamedTypeNode "Int" |}.

Definition constructorFirst : DocumentNode :=
  operationOf "rSubscription" [ intVariable "rXXFA" ]
    (FieldNode "r" (Some [])
       (Some [ FieldNode "x" (Some []) (Some [ constructorSelection "rXXFA" ]) ])).

Definition constructorSecond : DocumentNode :=
  operationOf "rSubscription" [ intVariable "rXXFA"; intVariable "rYYFA" ]
    (FieldNode "r" (Some [])
       (Some [ FieldNode "x" (Some []) (Some [ constructorSelection "rXXFA" ]);
               FieldNode "y" (Some []) (Some [ constructorSelection "rYYFA" ]) ])).

Definition constructorState : WalkState :=
  {| operationVariables := [];
     visitedTypes := {[ "R" := false; "constructor" := false ]} |}.

(** The manager of the [messageAdded] scenario, as its constructor leaves
    it, and the session requests made of it. *)
Definition messageSofa : Sofa :=
  {| sofa_schema := messageSchema [ plain "id" (NamedType "ID");
                                    plain "name" (NamedType "String") ];
     sofa_models := ["User"];
     sofa_ignore := [];
     sofa_context := ContextValue JsNull |}.

Definition messageManager : SubscriptionManager :=
  {| sofa := messageSofa;
     operations := {[ "messageAdded" :=
                        {| built_operationName := "messageAddedSubscription";
                           built_document := messageDocument;
                           built_variables := [roomId] |} ]};
     clients := ∅;
     effects := [] |}.

Definition startMessageAdded : StartSubscriptionEvent :=
  {| start_subscription := "messageAdded";
     start_variables := JsObject [("roomId", JsString "42")];
     start_url := "https://cb" |}.

Definition stream : AsyncIterator :=
  {| iterator_handle := 0; iterator_return := true |}.

(** A [parseVariable] that hands the supplied value on. *)
Definition passValue (value : JsValue) (_ : VariableDefinitionNode)
    (_ : GraphQLSchema) : JsValue := value.

(** A terminal result of [subscribe]: [{ errors: [...] }]. *)
Definition executionErrors : JsValue :=
  JsObject [("errors", JsArray [JsString "Variable roomId is required"])].

(** The session [s1] started, and then stopped by its owner. *)
Definition liveManager : SubscriptionManager :=
  snd (start passValue "s1" (AsyncIterable stream) startMessageAdded
             JsNull JsNull messageManager).

Definition stoppedManager : SubscriptionManager := snd (stop "s1" liveManager).

End Scenario.

(** ** Further notions used in the statements *)

(** The argument nodes of a selection, in document order. *)
Fixpoint selectionArguments (sel : SelectionNode) : list ArgumentNode :=
  match sel with
  | FieldNode _ arguments selectionSet =>
      (default [] arguments
       ++ match selectionSet with
          | Some sels => flat_map selectionArguments sels
          | None => []
          end)%list
  | InlineFragmentNode _ sels => flat_map selectionArguments sels
  end.

(** The arguments of a selection itself, and those of the selections under
    it. *)
Definition ownArguments (sel : SelectionNode) : list ArgumentNode :=
  match sel with
  | FieldNode _ (Some arguments) _ => arguments
  | _ => []
  end.

Definition nestedArguments (sel : SelectionNode) : list ArgumentNode :=
  match sel with
  | FieldNode _ _ (Some sels) => flat_map selectionArguments sels
  | FieldNode _ _ None => []
  | InlineFragmentNode _ sels => flat_map selectionArguments sels
  end.

(** The name under which the variable of an argument below the root is
    defined: the variable the argument refers to, or the argument's own name
    when that reference is the empty string. *)
Definition definedName (argument : ArgumentNode) : string :=
  if String.eqb (argument_variable argument) ""
  then argument_name argument
  else argument_variable argument.

(** The name under which the walk defines the variable of an argument
    [name] of a field it has reached with [path]: [name || arg.name] over
    [getArgumentName(arg.name, path)]. *)
Definition variableNameAt (path : list string) (name : string) : string :=
  let joined := getArgumentName name path in
  if String.eqb joined "" then name else joined.

(** The variable names of the arguments in and below a selection of a
    selection set that was entered with [path].  A field selection names
    its own arguments at the path extended by the field's name, and the
    selection set below it is entered with the path extended by that name
    twice: once by [resolveSelectionSet] when it calls [resolveField], once
    by [resolveField] when it calls [resolveSelectionSet].  An inline
    fragment leaves the path as it is. *)
Fixpoint pathNames (path : list string) (sel : SelectionNode) : list string :=
  match sel with
  | FieldNode name arguments selectionSet =>
      (match arguments with
       | Some arguments =>
           map (fun argument =>
                  variableNameAt (path ++ [name]) (argument_name argument))
               arguments
       | None => []
       end
       ++ match selectionSet with
          | Some sels => flat_map (pathNames (path ++ [name; name])) sels
          | None => []
          end)%list
  | InlineFragmentNode _ sels => flat_map (pathNames path) sels
  end.



(** The type a variable type node denotes, read wrapper by wrapper. *)
Fixpoint typeOfNode (node : TypeNode) : GraphQLType :=
  match node with
  | ListTypeNode n => ListType (typeOfNode n)
  | NonNullTypeNode n => NonNullType (typeOfNode n)
  | NamedTypeNode name => NamedType name
  end.

(** The fields of an object type that the guard of [resolveSelectionSet]
    lets through in the state [st]. *)
Definition unvisited (st : WalkState) (fields : list GraphQLField)
  : list GraphQLField :=
  List.filter
    (fun field => negb (found (visitedTypes st) (typeToString (field_type field))))
    fields.

(** The values [execute] obtains from [parseVariable] for the stored
    variable definitions, without the undefined ones. *)
Definition parsedValues
    (parseVariable : JsValue -> VariableDefinitionNode -> GraphQLSchema -> JsValue)
    (m : SubscriptionManager) (variables : JsValue)
    (nodes : list VariableDefinitionNode) : list JsValue :=
  List.filter (fun value => negb (is_undefined value))
    (map (fun variable =>
            parseVariable (js_get variables (variable_name variable)) variable
                          (sofa_schema (sofa m)))
         nodes).

(** Every stored session names a field that has a pre-built operation. *)
Definition Consistent (m : SubscriptionManager) : Prop :=
  forall id client,
    clients m !! id = Some client ->
    is_Some (operations m !! client_name client).

(** How a manager may differ from an earlier one: the same operations and
    configuration, a longer history of effects, and no session whose field
    is not among the operations unless it was there before. *)
Definition Evolves (m m' : SubscriptionManager) : Prop :=
  operations m' = operations m
  /\ sofa m' = sofa m
  /\ (exists more, effects m' = (effects m ++ more)%list)
  /\ (forall id client,
        clients m' !! id = Some client ->
        clients m !! id = Some client
        \/ is_Some (operations m !! client_name client)).

(** What can happen to a manager: the three requests, and the three events
    of a session's pump. *)
Inductive Event : Type :=
  | OnStart (id : ID) (execution : Execution) (event : StartSubscriptionEvent)
            (req res : JsValue)
  | OnStop (id : ID)
  | OnUpdate (id : ID) (execution : Execution) (event : UpdateSubscriptionEvent)
             (req res : JsValue)
  | OnValue (id : ID) (result : JsValue) (delivered : Completion unit)
  | OnCompleted (id : ID)
  | OnFailed (id : ID) (e : string).

Definition step
    (parseVariable : JsValue -> VariableDefinitionNode -> GraphQLSchema -> JsValue)
    (m : SubscriptionManager) (ev : Event) : SubscriptionManager :=
  match ev with
  | OnStart id execution event req res =>
      snd (start parseVariable id execution event req res m)
  | OnStop id => snd (stop id m)
  | OnUpdate id execution event req res =>
      snd (update parseVariable id execution event req res m)
  | OnValue id result delivered => pumpValue id result delivered m
  | OnCompleted id => pumpCompleted id m
  | OnFailed id e => pumpFailed id e m
  end.

Definition run
    (parseVariable : JsValue -> VariableDefinitionNode -> GraphQLSchema -> JsValue)
    (m : SubscriptionManager) (events : list Event) : SubscriptionManager :=
  fold_left (step parseVariable) events m.

(** Further schemas and sessions for the instances. *)
Module Cases.

Import Scenario.

(** [subscription { statusChanged(verbose: Boolean): Status  node: Node }]
    with [enum Status] and [interface Node { id }]. *)
Definition statusChanged : GraphQLField :=
  {| field_name := "statusChanged";
     field_type := NonNullType (NamedType "Status");
     field_args := [ {| arg_name := "verbose"; arg_type := NamedType "Boolean" |} ] |}.

Definition node : GraphQLField := plain "node" (NamedType "Node").

Definition statusSchema : GraphQLSchema :=
  subscriptionSchema
    [ ("Subscription", ObjectType [ statusChanged; node ]);
      ("Status", EnumType);
      ("Node", InterfaceType [ plain "id" (NamedType "ID") ]) ].

(** [subscription { feed(first: Int): Feed }] with
    [Feed { items(after: ID): [Item]  total }] and [Item { id  score(unit: String) }]. *)
Definition argumentOf (name type : string) : GraphQLArgument :=
  {| arg_name := name; arg_type := NamedType type |}.

Definition pagedSchema : GraphQLSchema :=
  subscriptionSchema
    [ ("Subscription",
       ObjectType [ {| field_name := "feed"; field_type := NamedType "Feed";
                       field_args := [ argumentOf "first" "Int" ] |} ]);
      ("Feed",
       ObjectType [ {| field_name := "items";
                       field_type := ListType (NamedType "Item");
                       field_args := [ argumentOf "after" "ID" ] |};
                    plain "total" (NamedType "Int") ]);
      ("Item",
       ObjectType [ plain "id" (NamedType "ID");
                    {| field_name := "score"; field_type := NamedType "Float";
                       field_args := [ argumentOf "unit" "String" ] |} ]) ].

Definition pagedDocument : DocumentNode :=
  operationOf "feedSubscription"
    [ {| variable_name := "first"; variable_type := NamedTypeNode "Int" |};
      {| variable_name := "feedItemsAfter"; variable_type := NamedTypeNode "ID" |};
      {| variable_name := "feedItemsItemsScoreUnit";
         variable_type := NamedTypeNode "String" |} ]
    (FieldNode "feed"
       (Some [ {| argument_name := "first"; argument_variable := "first" |} ])
       (Some [ FieldNode "items"
                 (Some [ {| argument_name := "after";
                            argument_variable := "feedItemsAfter" |} ])
                 (Some [ leaf "id";
                         FieldNode "score"
                           (Some [ {| argument_name := "unit";
                                      argument_variable := "feedItemsItemsScoreUnit" |} ])
                           None ]);
               leaf "total" ])).



(** A second stream, without a [return] method, and a manager with two live
    sessions. *)
Definition quietStream : AsyncIterator :=
  {| iterator_handle := 1; iterator_return := false |}.

Definition twoSessions : SubscriptionManager :=
  snd (start passValue "s2" (AsyncIterable quietStream) startMessageAdded
             JsNull JsNull liveManager).

(** A manager whose only operation has two stored variables. *)
Definition twoVariables : SubscriptionManager :=
  {| sofa := messageSofa;
     operations :=
       {[ "messageAdded" :=
            {| built_operationName := "messageAddedSubscription";
               built_document := messageDocument;
               built_variables :=
                 [ roomId;
                   {| variable_name := "since";
                      variable_type := NamedTypeNode "String" |} ] |} ]};
     clients := ∅;
     effects := [] |}.

End Cases.

(** * Theorems *)

Import Scenario.

(** ** The state monad of the synthesizer *)

Lemma wbind_inv {A B} (m : Walk A) (k : A -> Walk B) st b st' :
  wbind m k st = Some (b, st') ->
  exists a st1, m st = Some (a, st1) /\ k a st1 = Some (b, st').
Proof.
  unfold wbind. destruct (m st) as [[a st1]|]; [|discriminate].
  intros H. now exists a, st1.
Qed.

Lemma wbind_inv_result {A B} (m : Walk A) (k : A -> Walk B) st r :
  wbind m k st = Some r ->
  exists a st1, m st = Some (a, st1) /\ k a st1 = Some r.
Proof. destruct r as [b st']. apply wbind_inv. Qed.

Lemma wmap_cons_inv {A B} (f : A -> Walk B) x l st ys st' :
  wmap f (x :: l) st = Some (ys, st') ->
  exists y ys' st1,
    f x st = Some (y, st1) /\ wmap f l st1 = Some (ys', st') /\ ys = y :: ys'.
Proof.
  cbn. intros H.
  apply wbind_inv in H as (y & st1 & Hy & H).
  apply wbind_inv in H as (ys' & st2 & Hys & H).
  injection H as <- <-. now exists y, ys', st1.
Qed.

(** What every call of the callback guarantees, [wmap] guarantees of the
    whole list: a reflexive and transitive relation [R] between the states
    and a relation [Q] between each element and its image. *)
Lemma wmap_invariant {A B} (R : WalkState -> WalkState -> Prop)
    (Q : A -> B -> Prop) (f : A -> Walk B) (l : list A) :
  (forall st, R st st) ->
  (forall st1 st2 st3, R st1 st2 -> R st2 st3 -> R st1 st3) ->
  (forall x st y st', In x l -> f x st = Some (y, st') -> R st st' /\ Q x y) ->
  forall st ys st', wmap f l st = Some (ys, st') -> R st st' /\ Forall2 Q l ys.
Proof.
  intros Hrefl Htrans. induction l as [|x l IH]; intros Hf st ys st' H.
  - injection H as <- <-. split; [apply Hrefl|constructor].
  - apply wmap_cons_inv in H as (y & ys' & st1 & Hy & Hys & ->).
    destruct (Hf x st y st1 (or_introl eq_refl) Hy) as [HR HQ].
    destruct (IH (fun x' st0 y' st0' Hin => Hf x' st0 y' st0' (or_intror Hin))
                 st1 ys' st' Hys) as [HR' HQ'].
    split; [eapply Htrans; eassumption|now constructor].
Qed.

(** A call that succeeds inside [wmap] was made in a state that an
    invariant of the callback has reached. *)
Lemma wmap_reaches {A B} (Inv : WalkState -> Prop) (f : A -> Walk B) (l : list A) :
  (forall x st y st', In x l -> Inv st -> f x st = Some (y, st') -> Inv st') ->
  forall st ys st', Inv st -> wmap f l st = Some (ys, st') ->
  forall x, In x l -> exists stx y stx', Inv stx /\ f x stx = Some (y, stx').
Proof.
  induction l as [|x0 l IH]; intros Hf st ys st' Hinv H x Hin; [destruct Hin|].
  apply wmap_cons_inv in H as (y & ys' & st1 & Hy & Hys & ->).
  destruct Hin as [<-|Hin].
  - now exists st, y, st1.
  - eapply (IH (fun x' s y' s' Hx => Hf x' s y' s' (or_intror Hx)) st1);
      [|exact Hys|exact Hin].
    eapply Hf; [now left|exact Hinv|exact Hy].
Qed.

(** What each call of the callback appends to the accumulator, [wmap]
    appends in order. *)
Lemma wmap_accumulates {A B} (f : A -> Walk B) (g : B -> list string) (l : list A) :
  (forall x st y st',
     In x l -> f x st = Some (y, st') ->
     exists vars, operationVariables st' = (operationVariables st ++ vars)%list
                  /\ map variable_name vars = g y) ->
  forall st ys st',
    wmap f l st = Some (ys, st') ->
    exists vars, operationVariables st' = (operationVariables st ++ vars)%list
                 /\ map variable_name vars = flat_map g ys.
Proof.
  induction l as [|x l IH]; intros Hf st ys st' H.
  - injection H as <- <-. exists []. now rewrite app_nil_r.
  - apply wmap_cons_inv in H as (y & ys' & st1 & Hy & Hys & ->).
    destruct (Hf x st y st1 (or_introl eq_refl) Hy) as (v1 & E1 & N1).
    destruct (IH (fun x' s y' s' Hin => Hf x' s y' s' (or_intror Hin))
                 st1 ys' st' Hys) as (v2 & E2 & N2).
    exists (v1 ++ v2)%list. split.
    + now rewrite E2, E1, app_assoc.
    + cbn. now rewrite map_app, N1, N2.
Qed.

Lemma found_insert visited name b key :
  found (<[name := b]> visited) key
  = if decide (name = key) then b else found visited key.
Proof.
  unfold found. rewrite lookup_insert. now destruct (decide (name = key)).
Qed.

(** ** One step of the walk *)

Section SynthesizerFacts.

Variable schema : GraphQLSchema.
Variable models : list string.
Variable ignore : list string.

(** The arguments of a field: the nodes, and the variables they add. *)
Lemma resolveArguments firstCall path args st :
  wmap (resolveArgument firstCall path) args st
  = Some (map (fun arg => {| argument_name := arg_name arg;
                             argument_variable := getArgumentName (arg_name arg) path |})
              args,
          pushVariables
            (if firstCall then []
             else map (fun arg => resolveVariable arg
                                    (Some (getArgumentName (arg_name arg) path)))
                      args) st).
Proof.
  revert st. induction args as [|arg args IH]; intros st.
  - cbn. unfold wret, pushVariables. destruct st, firstCall; cbn;
      now rewrite ?app_nil_r.
  - cbn [wmap]. unfold wbind at 1.
    unfold resolveArgument at 1. unfold wbind at 1.
    destruct firstCall; cbn.
    + unfold wbind. rewrite IH. cbn. reflexivity.
    + unfold wbind. rewrite IH. cbn. unfold pushVariables. cbn.
      now rewrite <- app_assoc.
Qed.

Lemma resolveField_inv n type field firstCall path st sel st' :
  resolveField schema models ignore (S n) type field firstCall path st = Some (sel, st') ->
  let st1 := pushVariables (if firstCall then [] else argumentVariables path field) st in
  let args := map (fun arg => {| argument_name := arg_name arg;
                                 argument_variable := getArgumentName (arg_name arg) path |})
                  (field_args field) in
  exists selectionSet,
    sel = FieldNode (field_name field) (Some args) selectionSet
    /\ ((isScalarType schema (getNamedType (field_type field)) = true
         /\ selectionSet = None /\ st' = st1)
        \/ (isScalarType schema (getNamedType (field_type field)) = false
            /\ resolveSelectionSet schema models ignore
                 (resolveField schema models ignore n) type
                 (getNamedType (field_type field)) firstCall
                 (path ++ [field_name field])%list st1
               = Some (selectionSet, st'))).
Proof.
  cbn [resolveField]. intros H.
  apply wbind_inv in H as (args & st1 & Hargs & H).
  rewrite resolveArguments in Hargs. injection Hargs as <- <-.
  destruct (isScalarType schema (getNamedType (field_type field))) eqn:Hs; cbn in H.
  - injection H as <- <-. eexists. split; [reflexivity|]. left. auto.
  - apply wbind_inv in H as (ss & st2 & Hss & H). injection H as <- <-.
    eexists. split; [reflexivity|]. right. auto.
Qed.

Lemma resolveSelectionSet_inv rec parent type firstCall path st selectionSet st' :
  resolveSelectionSet schema models ignore rec parent type firstCall path st
  = Some (selectionSet, st') ->
  (exists types frags,
      getType schema type = UnionType types
      /\ selectionSet = Some frags
      /\ wmap (fun t =>
                 let* sels :=
                   wmap (fun field => rec t field false (path ++ [field_name field])%list)
                        (getFields schema t) in
                 wret (InlineFragmentNode t sels)) types st
         = Some (frags, st'))
  \/ (exists fields,
        getType schema type = ObjectType fields
        /\ negb firstCall && isModel models type
           && negb (isIgnored ignore parent type path) = true
        /\ selectionSet = Some [idField] /\ st' = st)
  \/ (exists fields sels st2,
        getType schema type = ObjectType fields
        /\ negb firstCall && isModel models type
           && negb (isIgnored ignore parent type path) = false
        /\ wmap (fun field => rec type field false (path ++ [field_name field])%list)
                (List.filter
                   (fun field =>
                      negb (found (visitedTypes st) (typeToString (field_type field))))
                   fields)
                (markVisited type true st)
           = Some (sels, st2)
        /\ selectionSet = Some sels
        /\ st' = markVisited type false st2)
  \/ (isObjectType schema type = false /\ isUnionType schema type = false
      /\ selectionSet = None /\ st' = st).
Proof.
  unfold resolveSelectionSet, isObjectType, isUnionType.
  destruct (getType schema type) as [| | | fs | fields | types] eqn:Ht.
  1-4: intros H; injection H as <- <-; right; right; right; auto.
  - destruct (negb firstCall && isModel models type
              && negb (isIgnored ignore parent type path)) eqn:Hc.
    + intros H. injection H as <- <-. right. left. exists fields. auto.
    + intros H.
      apply wbind_inv in H as (filtered & st1 & Hf & H).
      injection Hf as <- <-.
      apply wbind_inv in H as ([] & st2 & Hm & H). injection Hm as <-.
      apply wbind_inv in H as (sels & st3 & Hsels & H).
      apply wbind_inv in H as ([] & st4 & Hm & H). injection Hm as <-.
      injection H as <- <-.
      right. right. left. exists fields, sels, st3. auto.
  - intros H. apply wbind_inv in H as (frags & st1 & Hfr & H).
    injection H as <- <-. left. exists types, frags. auto.
Qed.

End SynthesizerFacts.

(** ** Invariants of the walk *)

Lemma Unwinds_refl schema st : Unwinds schema st st.
Proof.
  split; [exists []; now rewrite app_nil_r|intros key; now left].
Qed.

Lemma Unwinds_trans schema st1 st2 st3 :
  Unwinds schema st1 st2 -> Unwinds schema st2 st3 -> Unwinds schema st1 st3.
Proof.
  intros [[r1 H1] R1] [[r2 H2] R2]. split.
  - exists (r1 ++ r2)%list. now rewrite H2, H1, app_assoc.
  - intros key. destruct (R2 key) as [H|H]; [|now right].
    rewrite H. apply R1.
Qed.

Lemma Unwinds_push schema vars st : Unwinds schema st (pushVariables vars st).
Proof. split; [now exists vars|intros key; now left]. Qed.

Lemma Forall2_right {A B} (Q : B -> Prop) (l : list A) (ys : list B) :
  Forall2 (fun _ y => Q y) l ys -> Forall Q ys.
Proof. induction 1; now constructor. Qed.

Lemma Forall2_names {A B} (g : B -> string) (h : A -> string) l ys :
  Forall2 (fun x y => g y = h x) l ys -> map g ys = map h l.
Proof. induction 1; cbn; [reflexivity|]. now f_equal. Qed.

Lemma lastOfPath_snoc path name : lastOfPath (path ++ [name]) = name.
Proof. unfold lastOfPath. apply last_last. Qed.

Section WalkInvariants.

Variable schema : GraphQLSchema.
Variable models : list string.
Variable ignore : list string.

Lemma resolveSelectionSet_unwinds rec parent type firstCall path st selectionSet st' :
  (forall t field fc p s sel s',
     rec t field fc p s = Some (sel, s') -> Unwinds schema s s') ->
  resolveSelectionSet schema models ignore rec parent type firstCall path st
  = Some (selectionSet, st') ->
  Unwinds schema st st'.
Proof.
  intros Hrec H.
  apply resolveSelectionSet_inv in H
    as [(types & frags & Ht & -> & H)
       |[(fields & Ht & Hc & -> & ->)
        |[(fields & sels & st2 & Ht & Hc & H & -> & ->)
         |(_ & _ & -> & ->)]]].
  - eapply (wmap_invariant (Unwinds schema) (fun _ _ => True)); [..|exact H].
    + apply Unwinds_refl.
    + apply Unwinds_trans.
    + intros t s frag s' _ Hfrag.
      apply wbind_inv in Hfrag as (sels & s1 & Hsels & Hfrag).
      injection Hfrag as <- <-. split; [|exact I].
      eapply (wmap_invariant (Unwinds schema) (fun _ _ => True)); [..|exact Hsels].
      * apply Unwinds_refl.
      * apply Unwinds_trans.
      * intros field s0 sel s0' _ Hsel. split; [|exact I]. eapply Hrec, Hsel.
  - apply Unwinds_refl.
  - assert (Hw : Unwinds schema (markVisited type true st) st2).
    { eapply (wmap_invariant (Unwinds schema) (fun _ _ => True)); [..|exact H].
      - apply Unwinds_refl.
      - apply Unwinds_trans.
      - intros field s0 sel s0' _ Hsel. split; [|exact I]. eapply Hrec, Hsel. }
    destruct Hw as [[rest Hext] Hres]. split.
    + exists rest. exact Hext.
    + intros key. cbn. destruct (decide (type = key)) as [<-|Hne].
      * right. rewrite lookup_insert_eq. split; [reflexivity|].
        unfold isObjectType. now rewrite Ht.
      * rewrite lookup_insert_ne by exact Hne.
        destruct (Hres key) as [Hk|Hk]; [|now right].
        left. rewrite Hk. cbn. now rewrite lookup_insert_ne.
  - apply Unwinds_refl.
Qed.

Lemma resolveField_unwinds n type field firstCall path st sel st' :
  resolveField schema models ignore n type field firstCall path st = Some (sel, st') ->
  Unwinds schema st st'.
Proof.
  revert type field firstCall path st sel st'.
  induction n as [|n IH]; intros type field firstCall path st sel st' H;
    [discriminate|].
  apply resolveField_inv in H as (ss & _ & [(_ & _ & ->)|(_ & H)]).
  - apply Unwinds_push.
  - eapply Unwinds_trans; [apply Unwinds_push|].
    eapply resolveSelectionSet_unwinds; [|exact H]. exact IH.
Qed.

(** The variables a field occurrence below the root adds first are those of
    its own arguments, named from the path. *)
Lemma resolveField_variables n type field path st sel st' :
  resolveField schema models ignore n type field false path st = Some (sel, st') ->
  exists rest,
    operationVariables st'
    = (operationVariables st ++ argumentVariables path field ++ rest)%list.
Proof.
  destruct n as [|n]; [discriminate|]. intros H.
  apply resolveField_inv in H as (ss & _ & [(_ & _ & ->)|(_ & H)]).
  - exists []. cbn. now rewrite app_nil_r.
  - eapply resolveSelectionSet_unwinds in H; [|intros; eapply resolveField_unwinds; eassumption].
    destruct H as [[rest Hext] _]. exists rest.
    rewrite Hext. cbn. now rewrite app_assoc.
Qed.

Lemma resolveField_name n type field firstCall path st sel st' :
  resolveField schema models ignore n type field firstCall path st = Some (sel, st') ->
  selectionName sel = field_name field.
Proof.
  destruct n as [|n]; [discriminate|]. intros H.
  apply resolveField_inv in H as (ss & -> & _). reflexivity.
Qed.

(** Below the root, the rule of the Model Set holds of every selection. *)
Lemma resolveField_collapsed n parent field path st sel st' :
  In field (getFields schema parent) ->
  resolveField schema models ignore n parent field false path st = Some (sel, st') ->
  Collapsed schema models ignore parent sel.
Proof.
  revert parent field path st sel st'.
  induction n as [|n IH]; intros parent field path st sel st' Hin H;
    [discriminate|].
  apply resolveField_inv in H as (ss & -> & [(Hs & -> & _)|(_ & H)]).
  - apply Collapsed_other; [exact Hin| |discriminate].
    unfold collapses, isObjectType. unfold isScalarType in Hs.
    now destruct (getType schema (getNamedType (field_type field))).
  - apply resolveSelectionSet_inv in H
      as [(types & frags & Ht & -> & H)
         |[(fields & Ht & Hc & -> & ->)
          |[(fields & sels & st2 & Ht & Hc & H & -> & ->)
           |(Ho & _ & -> & ->)]]].
    + apply Collapsed_other; [exact Hin| |].
      { unfold collapses, isObjectType. now rewrite Ht. }
      intros sels [= <-].
      eapply Forall2_right.
      eapply (wmap_invariant (fun _ _ => True)); [..|exact H]; [easy|easy|].
      intros t s frag s' _ Hfrag. split; [exact I|].
      apply wbind_inv in Hfrag as (sels & s1 & Hsels & Hfrag).
      injection Hfrag as <- <-.
      assert (Hall : Forall2 (fun f sel => selectionName sel = field_name f
                                           /\ Collapsed schema models ignore t sel)
                             (getFields schema t) sels).
      { eapply (wmap_invariant (fun _ _ => True)); [..|exact Hsels]; [easy|easy|].
        intros f s0 sel s0' Hf Hsel. split; [exact I|]. split.
        - eapply resolveField_name, Hsel.
        - eapply IH; [exact Hf|exact Hsel]. }
      apply Collapsed_fragment.
      * eapply Forall2_names, Forall2_impl; [exact Hall|]. now intros f sel [].
      * eapply Forall2_right, Forall2_impl; [exact Hall|]. now intros f sel [].
    + apply Collapsed_model; [exact Hin|].
      unfold collapses, isObjectType. rewrite Ht.
      unfold isIgnored, isModel in Hc. rewrite lastOfPath_snoc in Hc.
      exact Hc.
    + apply Collapsed_other; [exact Hin| |].
      { unfold collapses, isObjectType. rewrite Ht.
        unfold isIgnored, isModel in Hc. rewrite lastOfPath_snoc in Hc.
        exact Hc. }
      intros sels' [= <-].
      eapply Forall2_right.
      eapply (wmap_invariant (fun _ _ => True)); [..|exact H]; [easy|easy|].
      intros f s0 sel s0' Hf Hsel. split; [exact I|].
      eapply IH; [|exact Hsel].
      unfold getFields. rewrite Ht.
      apply filter_In in Hf. apply Hf.
    + apply Collapsed_other; [exact Hin| |discriminate].
      unfold collapses. now rewrite Ho.
Qed.

End WalkInvariants.

(** ** States the synthesizer cannot tell apart *)









Section UniformWalk.

Variable schema : GraphQLSchema.
Variable models : list string.
Variable ignore : list string.






(** The root of a synthesized document. *)
Lemma rootVariables_pushed field st :
  wmap (fun arg => addOperationVariable (resolveVariable arg None))
       (field_args field) st
  = Some (map (fun _ => tt) (field_args field),
          pushVariables (rootVariables field) st).
Proof.
  unfold rootVariables. revert st.
  induction (field_args field) as [|arg args IH]; intros st.
  - cbn. unfold wret, pushVariables. destruct st; cbn. now rewrite app_nil_r.
  - cbn [wmap]. unfold wbind at 1. cbn. unfold wbind. rewrite IH. cbn.
    unfold pushVariables. cbn. now rewrite <- app_assoc.
Qed.

Lemma getArgumentName_root name : getArgumentName name [] = ChangeCase.camel name.
Proof. unfold getArgumentName. cbn. reflexivity. Qed.

Lemma buildOperation_inv fuel kind fieldName st r st' :
  buildOperation schema models ignore fuel kind fieldName st = Some (r, st') ->
  (r = Throw "TypeError" /\ st' = resetVariables st
   /\ (rootType schema kind = None
       \/ exists type, rootType schema kind = Some type
                       /\ findField schema type fieldName = None))
  \/ (exists type field sel st2,
        rootType schema kind = Some type
        /\ findField schema type fieldName = Some field
        /\ resolveField schema models ignore fuel type field true []
             (pushVariables (rootVariables field) (resetVariables st))
           = Some (sel, st2)
        /\ r = Normal
                 {| definitions :=
                      [ {| operation := kind;
                           operation_name :=
                             buildOperationName
                               (fieldName +:+ "_" +:+ kindToString kind);
                           variableDefinitions := operationVariables st2;
                           selections := [sel] |} ] |}
        /\ st' = resetVariables st2).
Proof.
  unfold buildOperation, buildDocumentNode. intros H.
  apply wbind_inv in H as ([] & s0 & [= <-] & H).
  apply wbind_inv in H as (result & s1 & Hdoc & H).
  destruct (rootType schema kind) as [type|] eqn:Hroot.
  2: { injection Hdoc as <- <-. injection H as <- <-. left.
       repeat split. now left. }
  destruct (findField schema type fieldName) as [field|] eqn:Hfield.
  2: { injection Hdoc as <- <-. injection H as <- <-. left.
       repeat split. right. now exists type. }
  apply wbind_inv in Hdoc as (units & s2 & Hvars & Hdoc).
  rewrite rootVariables_pushed in Hvars. injection Hvars as <- <-.
  apply wbind_inv in Hdoc as (sel & s3 & Hsel & Hdoc).
  injection Hdoc as <- <-.
  apply wbind_inv in H as (vars & s4 & [= <- <-] & H).
  apply wbind_inv in H as ([] & s5 & [= <-] & [= <- <-]).
  right. exists type, field, sel, s3. repeat split; assumption.
Qed.

End UniformWalk.

(** ** The depth budget

    A larger budget changes no answer. *)

Lemma Below_bind {A B} (m m' : Walk A) (k k' : A -> Walk B) :
  Below m m' -> (forall a, Below (k a) (k' a)) -> Below (wbind m k) (wbind m' k').
Proof.
  intros Hm Hk st r H.
  apply wbind_inv_result in H as (a & st1 & Ha & Hr).
  unfold wbind. rewrite (Hm _ _ Ha). now apply Hk.
Qed.

Lemma Below_refl {A} (m : Walk A) : Below m m.
Proof. now intros st r H. Qed.

Lemma Below_wmap {A B} (f f' : A -> Walk B) (l : list A) :
  (forall x, Below (f x) (f' x)) -> Below (wmap f l) (wmap f' l).
Proof.
  intros Hf. induction l as [|x l IH]; cbn [wmap]; [apply Below_refl|].
  apply Below_bind; [apply Hf|]. intros y.
  apply Below_bind; [exact IH|]. intros ys. apply Below_refl.
Qed.

Section DepthBudget.

Variable schema : GraphQLSchema.
Variable models : list string.
Variable ignore : list string.

Lemma Below_resolveSelectionSet rec rec' parent type firstCall path :
  (forall t field fc p, Below (rec t field fc p) (rec' t field fc p)) ->
  Below (resolveSelectionSet schema models ignore rec parent type firstCall path)
        (resolveSelectionSet schema models ignore rec' parent type firstCall path).
Proof.
  intros Hrec. unfold resolveSelectionSet.
  destruct (getType schema type); try apply Below_refl.
  - destruct (negb firstCall && isModel models type
              && negb (isIgnored ignore parent type path));
      [apply Below_refl|].
    apply Below_bind; [apply Below_refl|]. intros filtered.
    apply Below_bind; [apply Below_refl|]. intros _.
    apply Below_bind; [apply Below_wmap; intros; apply Hrec|]. intros sels.
    apply Below_refl.
  - apply Below_bind; [|intros; apply Below_refl].
    apply Below_wmap. intros t.
    apply Below_bind; [|intros; apply Below_refl].
    apply Below_wmap. intros; apply Hrec.
Qed.

Lemma resolveField_fuel_step n type field firstCall path :
  Below (resolveField schema models ignore n type field firstCall path)
        (resolveField schema models ignore (S n) type field firstCall path).
Proof.
  revert type field firstCall path.
  induction n as [|n IH]; intros type field firstCall path.
  - intros st r H. discriminate.
  - cbn [resolveField].
    apply Below_bind; [apply Below_refl|]. intros args.
    destruct (negb (isScalarType schema (getNamedType (field_type field))));
      [|apply Below_refl].
    apply Below_bind; [|intros; apply Below_refl].
    apply Below_resolveSelectionSet. exact IH.
Qed.

Lemma resolveField_fuel_mono n n' type field firstCall path :
  n <= n' ->
  Below (resolveField schema models ignore n type field firstCall path)
        (resolveField schema models ignore n' type field firstCall path).
Proof.
  induction 1 as [|n' _ IH]; [apply Below_refl|].
  intros st r H. now apply resolveField_fuel_step, IH.
Qed.

Lemma buildOperation_fuel_mono n n' kind fieldName :
  n <= n' ->
  Below (buildOperation schema models ignore n kind fieldName)
        (buildOperation schema models ignore n' kind fieldName).
Proof.
  intros Hle. unfold buildOperation, buildDocumentNode.
  apply Below_bind; [apply Below_refl|]. intros _.
  apply Below_bind; [|intros; apply Below_refl].
  destruct (rootType schema kind) as [type|]; [|apply Below_refl].
  destruct (findField schema type fieldName) as [field|]; [|apply Below_refl].
  apply Below_bind; [apply Below_refl|]. intros _.
  apply Below_bind; [|intros; apply Below_refl].
  now apply resolveField_fuel_mono.
Qed.

End DepthBudget.

(** ** The synthesized document *)




Section Documents.

Variable schema : GraphQLSchema.
Variable models : list string.
Variable ignore : list string.

(** The root of a synthesized document: the definitions of the root
    field's arguments head the variable list, and the root selection carries
    the field's arguments. *)
Lemma buildOperation_root fuel kind fieldName st document st' :
  buildOperation schema models ignore fuel kind fieldName st
  = Some (Normal document, st') ->
  exists type field selectionSet rest,
    rootType schema kind = Some type
    /\ findField schema type fieldName = Some field
    /\ definitions document
       = [ {| operation := kind;
              operation_name :=
                buildOperationName (fieldName +:+ "_" +:+ kindToString kind);
              variableDefinitions := (rootVariables field ++ rest)%list;
              selections :=
                [ FieldNode (field_name field) (Some (rootArguments field))
                            selectionSet ] |} ].
Proof.
  intros H.
  apply buildOperation_inv in H
    as [([=] & _)|(type & field & sel & st2 & Hroot & Hfield & Hsel & [= ->] & ->)].
  destruct fuel as [|n]; [discriminate|].
  pose proof (resolveField_unwinds _ _ _ _ _ _ _ _ _ _ _ Hsel) as [[rest Hrest] _].
  apply resolveField_inv in Hsel as (ss & -> & _).
  exists type, field, ss, rest.
  split; [exact Hroot|]. split; [exact Hfield|].
  cbn. rewrite Hrest. reflexivity.
Qed.

(** C10: the variable definitions of the root field's arguments carry the
    bare argument names, while the arguments of the root selection refer to
    the camel-cased names; a definition and its reference agree exactly when
    camel-casing leaves the argument name as it is. *)
Theorem root_argument_names fuel kind fieldName st document st' :
  buildOperation schema models ignore fuel kind fieldName st
  = Some (Normal document, st') ->
  exists type field selectionSet rest,
    rootType schema kind = Some type
    /\ findField schema type fieldName = Some field
    /\ definitions document
       = [ {| operation := kind;
              operation_name :=
                buildOperationName (fieldName +:+ "_" +:+ kindToString kind);
              variableDefinitions := (rootVariables field ++ rest)%list;
              selections :=
                [ FieldNode (field_name field) (Some (rootArguments field))
                            selectionSet ] |} ]
    /\ map variable_name (rootVariables field) = map arg_name (field_args field)
    /\ map argument_variable (rootArguments field)
       = map (fun arg => ChangeCase.camel (arg_name arg)) (field_args field)
    /\ Forall2 (fun definition reference =>
                  variable_name definition = argument_variable reference
                  <-> ChangeCase.camel (argument_name reference)
                      = argument_name reference)
               (rootVariables field) (rootArguments field).
Proof.
  intros H.
  destruct (buildOperation_root _ _ _ _ _ _ H)
    as (type & field & ss & rest & Hroot & Hfield & Hdefs).
  exists type, field, ss, rest.
  split; [exact Hroot|]. split; [exact Hfield|]. split; [exact Hdefs|].
  split; [|split].
  - unfold rootVariables. rewrite map_map. reflexivity.
  - unfold rootArguments. rewrite map_map. reflexivity.
  - unfold rootVariables, rootArguments.
    induction (field_args field) as [|arg args IH]; constructor; [|exact IH].
    cbn. split; intros E; now symmetry.
Qed.

(** C3, as the code has it: below the root every field selection whose
    named type is an object type of the Model Set, ignored neither by its
    name nor by [Parent.field], is [{ id }] and nothing deeper; the root
    field is expanded, one selection for each field the visited guard lets
    through, whether or not its type is a model; and the inline fragment of
    a union member selects every field of the member, model or not. *)
Theorem model_references_collapse fuel kind fieldName st document st' :
  buildOperation schema models ignore fuel kind fieldName st
  = Some (Normal document, st') ->
  exists type field args selectionSet op,
    rootType schema kind = Some type
    /\ findField schema type fieldName = Some field
    /\ definitions document = [op]
    /\ selections op = [FieldNode (field_name field) args selectionSet]
    /\ (forall sels, selectionSet = Some sels ->
          Forall (Collapsed schema models ignore (getNamedType (field_type field)))
                 sels)
    /\ (forall fields,
          getType schema (getNamedType (field_type field)) = ObjectType fields ->
          exists sels,
            selectionSet = Some sels
            /\ map selectionName sels
               = map field_name
                   (List.filter
                      (fun f => negb (found (visitedTypes st)
                                            (typeToString (field_type f))))
                      fields)).
Proof.
  intros H.
  apply buildOperation_inv in H
    as [([=] & _)|(type & field & sel & st2 & Hroot & Hfield & Hsel & [= ->] & ->)].
  destruct fuel as [|n]; [discriminate|].
  apply resolveField_inv in Hsel as (ss & -> & Hsel).
  eexists type, field, _, ss, _. repeat split; try eassumption; try reflexivity.
  - intros sels ->.
    destruct Hsel as [(_ & [=] & _)|(_ & Hsel)].
    apply resolveSelectionSet_inv in Hsel
      as [(types & frags & Ht & [= <-] & H)
         |[(fields & Ht & Hc & _)
          |[(fields & sels' & s2 & Ht & Hc & H & [= <-] & _)
           |(_ & _ & [=] & _)]]]; [| discriminate |].
    + eapply Forall2_right.
      eapply (wmap_invariant (fun _ _ => True)); [..|exact H]; [easy|easy|].
      intros t s frag s' _ Hfrag. split; [exact I|].
      apply wbind_inv in Hfrag as (fsels & s1 & Hsels & Hfrag).
      injection Hfrag as <- <-.
      assert (Hall : Forall2 (fun f sel => selectionName sel = field_name f
                                           /\ Collapsed schema models ignore t sel)
                             (getFields schema t) fsels).
      { eapply (wmap_invariant (fun _ _ => True)); [..|exact Hsels]; [easy|easy|].
        intros f s0 sel s0' Hf Hsel. split; [exact I|]. split.
        - eapply resolveField_name, Hsel.
        - eapply resolveField_collapsed; [exact Hf|exact Hsel]. }
      apply Collapsed_fragment.
      * eapply Forall2_names, Forall2_impl; [exact Hall|]. now intros f sel [].
      * eapply Forall2_right, Forall2_impl; [exact Hall|]. now intros f sel [].
    + eapply Forall2_right.
      eapply (wmap_invariant (fun _ _ => True)); [..|exact H]; [easy|easy|].
      intros f s0 sel s0' Hf Hsel. split; [exact I|].
      eapply resolveField_collapsed; [|exact Hsel].
      unfold getFields. rewrite Ht. apply filter_In in Hf. apply Hf.
  - intros fields Ht.
    destruct Hsel as [(Hs & _)|(_ & Hsel)].
    { unfold isScalarType in Hs. now rewrite Ht in Hs. }
    apply resolveSelectionSet_inv in Hsel
      as [(types & frags & Ht' & _)
         |[(fields' & Ht' & Hc & _)
          |[(fields' & sels & s2 & Ht' & Hc & H & -> & _)
           |(Ho & _)]]].
    + congruence.
    + discriminate.
    + exists sels. split; [reflexivity|].
      assert (fields' = fields) as -> by congruence.
      eapply Forall2_names.
      eapply (wmap_invariant (fun _ _ => True)); [..|exact H]; [easy|easy|].
      intros f s0 sel s0' _ Hf. split; [exact I|].
      eapply resolveField_name, Hf.
    + unfold isObjectType in Ho. now rewrite Ht in Ho.
Qed.








End Documents.

(** Names built from a path; a camel-cased name that comes out empty gives
    way to the bare argument name. *)
Lemma nested_argument_names :
  getArgumentName "first" ["feed"; "items"; "items"; "comments"]
  = "feedItemsItemsCommentsFirst"
  /\ getArgumentName "_" ["_"; "_"] = ""
  /\ variable_name
       (resolveVariable {| arg_name := "_"; arg_type := NamedType "Int" |}
                        (Some (getArgumentName "_" ["_"; "_"])))
     = "_".
Proof. repeat split; vm_compute; reflexivity. Qed.

(** The names [pathNames] gives below the root of the paged feed: the name
    of [items] comes twice on the way to [score]. *)
Lemma pathNames_paged_feed :
  flat_map (pathNames ["feed"])
    [ FieldNode "items"
        (Some [ {| argument_name := "after";
                   argument_variable := "feedItemsAfter" |} ])
        (Some [ leaf "id";
                FieldNode "score"
                  (Some [ {| argument_name := "unit";
                             argument_variable := "feedItemsItemsScoreUnit" |} ])
                  None ]);
      leaf "total" ]
  = ["feedItemsAfter"; "feedItemsItemsScoreUnit"].
Proof. vm_compute. reflexivity. Qed.

(** ** Cycles *)

(** The guard reads [visitedTypes] under the printed type of the field,
    wrappers included, while the walk marks the bare type name. *)
Lemma guard_reads_printed_type fields st :
  unvisitedFields fields st
  = Some (List.filter
            (fun field => negb (found (visitedTypes st)
                                      (typeToString (field_type field))))
            fields, st).
Proof. reflexivity. Qed.

Lemma guard_misses_wrapped_type visited :
  found (<["User" := true]> visited) (getNamedType (field_type friends)) = true
  /\ found (<["User" := true]> visited) (typeToString (field_type friends))
     = found visited "[User]".
Proof.
  rewrite !found_insert. split; reflexivity.
Qed.

(** [A { b: B }], [B { a: A }]: the walk ends, and [a] under [b] is left
    out. *)
Lemma cyclic_schema_terminates n :
  fst <$> buildOperation cyclicSchema [] [] (3 + n) subscription "a" initialWalkState
  = Some (Normal cyclicDocument).
Proof. vm_compute. reflexivity. Qed.

Lemma unmarked_key_kept schema models ignore n type field firstCall path st sel st' key :
  found (visitedTypes st) key = false ->
  resolveField schema models ignore n type field firstCall path st = Some (sel, st') ->
  found (visitedTypes st') key = false.
Proof.
  intros Hkey H. apply resolveField_unwinds in H as [_ Hres].
  destruct (Hres key) as [Hk|[Hk _]]; unfold found in *; now rewrite Hk.
Qed.

(** Expanding [User] calls [resolveField] on [friends]. *)
Lemma friends_expansion_recurses n parent firstCall path st selectionSet st' :
  found (visitedTypes st) "[User]" = false ->
  resolveSelectionSet friendsSchema [] [] (resolveField friendsSchema [] [] n)
                      parent "User" firstCall path st
  = Some (selectionSet, st') ->
  exists stx sel stx',
    found (visitedTypes stx) "[User]" = false
    /\ resolveField friendsSchema [] [] n "User" friends false
                    (path ++ ["friends"])%list stx
       = Some (sel, stx').
Proof.
  intros Hinv H.
  apply resolveSelectionSet_inv in H
      as [(types & frags & Ht & _)
         |[(fields & Ht & Hc & _)
          |[(fields & sels & st2 & Ht & Hc & H & _)
           |(Ho & _)]]].
  - vm_compute in Ht. discriminate.
  - now destruct firstCall.
  - vm_compute in Ht. injection Ht as <-.
    refine (wmap_reaches (fun s => found (visitedTypes s) "[User]" = false)
              _ _ _ _ _ _ _ H friends _).
    + intros f s y s' _ Hs Hf. eapply unmarked_key_kept; eassumption.
    + cbn. rewrite found_insert. exact Hinv.
    + apply filter_In. split; [right; now left|].
      change (negb (found (visitedTypes st) "[User]") = true).
      now rewrite Hinv.
  - vm_compute in Ho. discriminate.
Qed.

Lemma friends_expansion_diverges n parent firstCall path st selectionSet st' :
  found (visitedTypes st) "[User]" = false ->
  resolveSelectionSet friendsSchema [] [] (resolveField friendsSchema [] [] n)
                      parent "User" firstCall path st
  <> Some (selectionSet, st').
Proof.
  revert parent firstCall path st selectionSet st'.
  induction n as [|n IH]; intros parent firstCall path st selectionSet st' Hinv H.
  all: apply friends_expansion_recurses in H as (stx & sel & stx' & Hx & Hcall);
    [|exact Hinv].
  - discriminate.
  - apply resolveField_inv in Hcall as (ss & _ & [(Hs & _)|(_ & Hcall)]).
    + vm_compute in Hs. discriminate.
    + eapply IH; [|exact Hcall]. exact Hx.
Qed.

(** C2 at the schema [User { id friends: [User] }]: whatever the depth
    budget, the synthesis of the root field [userChanged: User] does not
    produce a document.  The guard looks [friends] up under [[User]], finds
    nothing, and the walk expands [User] under [friends] again and again. *)
Theorem self_referential_list_diverges fuel :
  buildOperation friendsSchema [] [] fuel subscription "userChanged"
                 initialWalkState
  = None.
Proof.
  destruct (buildOperation _ _ _ _ _ _ _) as [[r st']|] eqn:H; [exfalso|reflexivity].
  apply buildOperation_inv in H
    as [(_ & _ & [Hroot|(type & Hroot & Hfield)])
       |(type & field & sel & st2 & Hroot & Hfield & Hsel & _)].
  - vm_compute in Hroot. discriminate.
  - vm_compute in Hroot. injection Hroot as <-.
    vm_compute in Hfield. discriminate.
  - vm_compute in Hroot. injection Hroot as <-.
    vm_compute in Hfield. injection Hfield as <-.
    destruct fuel as [|n]; [discriminate|].
    apply resolveField_inv in Hsel as (ss & _ & [(Hs & _)|(_ & Hsel)]).
    + vm_compute in Hs. discriminate.
    + eapply friends_expansion_diverges; [|exact Hsel]. reflexivity.
Qed.

(** A cycle through a union: the union branch marks nothing and consults no
    guard. *)
Lemma union_expansion_recurses n parent firstCall path st selectionSet st' :
  resolveSelectionSet entrySchema [] [] (resolveField entrySchema [] [] n)
                      parent "Entry" firstCall path st
  = Some (selectionSet, st') ->
  exists stx sel stx',
    resolveField entrySchema [] [] n "Folder" contents false
                 (path ++ ["contents"])%list stx
    = Some (sel, stx').
Proof.
  intros H.
  apply resolveSelectionSet_inv in H
      as [(types & frags & Ht & _ & H)
         |[(fields & Ht & _)
          |[(fields & sels & st2 & Ht & _)
           |(_ & Hu & _)]]].
  - vm_compute in Ht. injection Ht as <-.
    apply wmap_cons_inv in H as (frag & frags' & st1 & H & _).
    apply wbind_inv in H as (sels & st2 & H & _).
    destruct (wmap_reaches (fun _ => True) _ _ (fun _ _ _ _ _ _ _ => I)
                _ _ _ I H contents)
      as (stx & sel & stx' & _ & Hcall).
    + vm_compute. tauto.
    + now exists stx, sel, stx'.
  - vm_compute in Ht. discriminate.
  - vm_compute in Ht. discriminate.
  - vm_compute in Hu. discriminate.
Qed.

Lemma union_expansion_diverges n parent firstCall path st selectionSet st' :
  resolveSelectionSet entrySchema [] [] (resolveField entrySchema [] [] n)
                      parent "Entry" firstCall path st
  <> Some (selectionSet, st').
Proof.
  revert parent firstCall path st selectionSet st'.
  induction n as [|n IH]; intros parent firstCall path st selectionSet st' H.
  all: apply union_expansion_recurses in H as (stx & sel & stx' & Hcall).
  - discriminate.
  - apply resolveField_inv in Hcall as (ss & _ & [(Hs & _)|(_ & Hcall)]).
    + vm_compute in Hs. discriminate.
    + eapply IH, Hcall.
Qed.

Lemma union_cycle_diverges fuel :
  buildOperation entrySchema [] [] fuel subscription "entry" initialWalkState
  = None.
Proof.
  destruct (buildOperation _ _ _ _ _ _ _) as [[r st']|] eqn:H; [exfalso|reflexivity].
  apply buildOperation_inv in H
    as [(_ & _ & [Hroot|(type & Hroot & Hfield)])
       |(type & field & sel & st2 & Hroot & Hfield & Hsel & _)].
  - vm_compute in Hroot. discriminate.
  - vm_compute in Hroot. injection Hroot as <-.
    vm_compute in Hfield. discriminate.
  - vm_compute in Hroot. injection Hroot as <-.
    vm_compute in Hfield. injection Hfield as <-.
    destruct fuel as [|n]; [discriminate|].
    apply resolveField_inv in Hsel as (ss & _ & [(Hs & _)|(_ & Hsel)]).
    + vm_compute in Hs. discriminate.
    + eapply union_expansion_diverges, Hsel.
Qed.

(** ** Evaluation of the scenarios *)

(** C6: for [subscription { messageAdded(roomId: ID!): Message }] with
    [Message { id text author: User }] and [User] in the Model Set, the
    synthesis yields [messageAdded(roomId: $roomId) { id text author { id } }]
    with the one variable definition [roomId: ID!], whatever fields [User]
    has and for every depth budget of at least two. *)
Theorem messageAdded_synthesis userFields n :
  buildOperation (messageSchema userFields) ["User"] [] (2 + n)
                 subscription "messageAdded" initialWalkState
  = Some (Normal messageDocument,
          {| operationVariables := [];
             visitedTypes := {[ "Message" := false ]} |})
  /\ variableDefinitions <$> definitions messageDocument = [[roomId]]
  /\ selections <$> definitions messageDocument
     = [[ FieldNode "messageAdded"
            (Some [ {| argument_name := "roomId"; argument_variable := "roomId" |} ])
            (Some [ FieldNode "id" (Some []) None;
                    FieldNode "text" (Some []) None;
                    FieldNode "author" (Some [])
                      (Some [ FieldNode "id" None None ]) ]) ]].
Proof. split; [vm_compute; reflexivity|split; reflexivity]. Qed.

(** [camelCase] on the strings of the scenarios. *)
Lemma camel_examples :
  map ChangeCase.camel
      [ "roomId"; "room_id"; "messageAdded_subscription"; "feed_thumbnail_size";
        "r_x_x_f_a"; "HTMLParser"; "a_1b" ]
  = [ "roomId"; "roomId"; "messageAddedSubscription"; "feedThumbnailSize";
      "rXXFA"; "htmlParser"; "a_1b" ].
Proof. vm_compute. reflexivity. Qed.

(** The constructor of the manager builds that document for the field. *)
Lemma messageManager_constructed n :
  fst <$> newSubscriptionManager (2 + n) messageSofa initialWalkState
  = Some (Normal messageManager).
Proof. vm_compute. reflexivity. Qed.

(** A root argument spelled [room_id] is defined as [$room_id] and referred
    to as [$roomId]. *)
Lemma snake_case_root_argument n :
  fst <$> buildOperation snakeSchema [] [] (2 + n) subscription "messageAdded"
                         initialWalkState
  = Some (Normal snakeDocument).
Proof. vm_compute. reflexivity. Qed.

(** An object type named [constructor]: the first synthesis skips the field
    [y], the second one does not. *)
Lemma constructor_type_changes_second_synthesis :
  buildOperation constructorSchema [] [] 4 subscription "r" initialWalkState
  = Some (Normal constructorFirst, constructorState)
  /\ buildOperation constructorSchema [] [] 4 subscription "r" constructorState
     = Some (Normal constructorSecond, constructorState)
  /\ variableNames constructorFirst <> variableNames constructorSecond.
Proof.
  split; [vm_compute; reflexivity|]. split; [vm_compute; reflexivity|].
  discriminate.
Qed.

(** ** The session manager *)

Section ManagerFacts.

Variable parseVariable : JsValue -> VariableDefinitionNode -> GraphQLSchema -> JsValue.

Lemma stop_absent id m :
  clients m !! id = None -> stop id m = (UnknownSessionId id, m).
Proof. intros H. unfold stop. now rewrite H. Qed.

Lemma stop_present id m client :
  clients m !! id = Some client ->
  exists m', stop id m = (Normal id, m')
             /\ clients m' = delete id (clients m)
             /\ operations m' = operations m
             /\ sofa m' = sofa m.
Proof.
  intros H. unfold stop. rewrite H.
  destruct (iterator_return (client_iterator client)); eexists; split; eauto.
Qed.

Lemma stop_signals_stream id m client :
  clients m !! id = Some client ->
  iterator_return (client_iterator client) = true ->
  effects (snd (stop id m)) = (effects m ++ [Returned (client_iterator client)])%list.
Proof. intros H Hr. unfold stop. rewrite H, Hr. reflexivity. Qed.

Lemma detachedStop_present id m client :
  clients m !! id = Some client -> detachedStop id m = snd (stop id m).
Proof.
  intros H. unfold detachedStop.
  destruct (stop_present id m client H) as (m' & -> & _). reflexivity.
Qed.

Lemma detachedStop_absent id m :
  clients m !! id = None ->
  detachedStop id m = emit (UnhandledRejection (doesNotExist id)) m.
Proof. intros H. unfold detachedStop. now rewrite (stop_absent id m H). Qed.

Lemma start_live id iterator event req res m op :
  operations m !! start_subscription event = Some op ->
  exists m',
    start parseVariable id (AsyncIterable iterator) event req res m = (Normal (Started id), m')
    /\ clients m' = <[id := {| client_name := start_subscription event;
                               client_url := start_url event;
                               client_iterator := iterator |}]> (clients m)
    /\ operations m' = operations m
    /\ effects m' =
         (effects m ++
          [Subscribed
             {| subscribe_document := built_document op;
                subscribe_operationName := built_operationName op;
                subscribe_variableValues :=
                  variableValues parseVariable m (start_subscription event)
                                 (JsArray (map JsNode (built_variables op)));
                subscribe_contextValue := resolveContext m req res |}])%list.
Proof.
  intros H. unfold start. rewrite H. cbn. eexists. split; [reflexivity|].
  cbn. repeat split.
Qed.

Lemma start_terminal id result event req res m op :
  operations m !! start_subscription event = Some op ->
  exists m',
    start parseVariable id (ExecutionResult result) event req res m = (Normal (Terminal result), m')
    /\ clients m' = clients m.
Proof.
  intros H. unfold start. rewrite H. cbn. eexists. split; reflexivity.
Qed.

(** An error thrown before [subscribe] is reached leaves the manager as it
    was; a rejection of [subscribe] leaves the call recorded and the store
    as it was.  Either goes on to the caller of [start]. *)
Lemma start_thrown id e event req res m op :
  operations m !! start_subscription event = Some op ->
  start parseVariable id (Thrown e) event req res m = (Throw e, m).
Proof. intros H. unfold start. rewrite H. reflexivity. Qed.

Lemma start_rejected id e event req res m op :
  operations m !! start_subscription event = Some op ->
  exists m',
    start parseVariable id (Rejected e) event req res m = (Throw e, m')
    /\ clients m' = clients m
    /\ operations m' = operations m.
Proof.
  intros H. unfold start. rewrite H. cbn. eexists. split; [reflexivity|].
  split; reflexivity.
Qed.

(** The [reduce] of [execute] writes under one key only. *)
Lemma bindVariable_dom m name vars values variable :
  dom values ⊆ {[name]} ->
  dom (bindVariable parseVariable m name vars values variable) ⊆ {[name]}.
Proof.
  intros H. unfold bindVariable.
  destruct (is_undefined _); [exact H|].
  rewrite dom_insert_L. apply union_subseteq. split; [reflexivity|exact H].
Qed.

Lemma variableValues_dom m name vars :
  dom (variableValues parseVariable m name vars) ⊆ ({[name]} : gset string).
Proof.
  unfold variableValues. destruct (operations m !! name) as [op|].
  - assert (Hgen : forall l values, dom values ⊆ ({[name]} : gset string) ->
               dom (fold_left (bindVariable parseVariable m name vars) l values)
                 ⊆ ({[name]} : gset string)).
    { induction l as [|v l IH]; intros values Hv; cbn; [exact Hv|].
      apply IH, bindVariable_dom, Hv. }
    apply Hgen. rewrite dom_empty_L. apply empty_subseteq.
  - rewrite dom_empty_L. apply empty_subseteq.
Qed.

Lemma variableValues_other_key m name vars key :
  key <> name -> variableValues parseVariable m name vars !! key = None.
Proof.
  intros Hne. apply not_elem_of_dom. intros Hin.
  apply variableValues_dom, elem_of_singleton in Hin. contradiction.
Qed.

(** [start] never reads the variables of its event. *)
Lemma start_ignores_event_variables id execution name url v1 v2 req res m :
  start parseVariable id execution
        {| start_subscription := name; start_variables := v1; start_url := url |}
        req res m
  = start parseVariable id execution
          {| start_subscription := name; start_variables := v2; start_url := url |}
          req res m.
Proof. reflexivity. Qed.

(** Nor does [update] read them: they are handed to [start]. *)
Lemma update_ignores_event_variables id' execution id v1 v2 req res m :
  update parseVariable id' execution
         {| update_id := id; update_variables := v1 |} req res m
  = update parseVariable id' execution
           {| update_id := id; update_variables := v2 |} req res m.
Proof. reflexivity. Qed.

(** C9: [start] with a field name for which no operation was pre-built
    fails with the error that names the field, and the manager, its session
    store included, is left as it was. *)
Theorem start_unknown_field id execution event req res m :
  operations m !! start_subscription event = None ->
  start parseVariable id execution event req res m
  = (Throw ("Subscription '" +:+ start_subscription event +:+ "' is not available"),
     m)
  /\ fst (start parseVariable id execution event req res m)
     = UnknownSubscriptionField (start_subscription event)
  /\ clients (snd (start parseVariable id execution event req res m)) = clients m.
Proof.
  intros H. unfold start. rewrite H. repeat split.
Qed.

(** C8: when the execution is a live stream, [start] stores one new session
    under the identifier it returns, having done nothing but call
    [subscribe]; a [stop] with that identifier then succeeds and removes the
    session, and a second [stop] fails with UnknownSessionId. *)
Theorem start_then_stop id iterator event req res m op :
  operations m !! start_subscription event = Some op ->
  clients m !! id = None ->
  exists m1 m2 args,
    start parseVariable id (AsyncIterable iterator) event req res m
    = (Normal (Started id), m1)
    /\ size (clients m1) = S (size (clients m))
    /\ clients m1 !! id = Some {| client_name := start_subscription event;
                                  client_url := start_url event;
                                  client_iterator := iterator |}
    /\ (forall other, other <> id -> clients m1 !! other = clients m !! other)
    /\ effects m1 = (effects m ++ [Subscribed args])%list
    /\ stop id m1 = (Normal id, m2)
    /\ clients m2 = clients m
    /\ stop id m2 = (UnknownSessionId id, m2).
Proof.
  intros Hop Hfresh.
  destruct (start_live id iterator event req res m op Hop)
    as (m1 & Hstart & Hclients & _ & Heff).
  assert (Hid : clients m1 !! id
                = Some {| client_name := start_subscription event;
                          client_url := start_url event;
                          client_iterator := iterator |}).
  { rewrite Hclients. apply lookup_insert_eq. }
  destruct (stop_present id m1 _ Hid) as (m2 & Hstop & Hclients2 & _).
  assert (Hback : clients m2 = clients m).
  { rewrite Hclients2, Hclients, delete_insert_eq. now apply delete_id. }
  exists m1, m2. eexists. repeat split.
  - exact Hstart.
  - rewrite Hclients. now apply map_size_insert_None.
  - exact Hid.
  - intros other Hne. rewrite Hclients. now apply lookup_insert_ne.
  - exact Heff.
  - exact Hstop.
  - exact Hback.
  - apply stop_absent. now rewrite Hback.
Qed.

(** C7, as the code has it: [update] on a stored identifier stops that
    session and then is the call of [start] for the stored field name and
    target, under the identifier [uuid()] yields for that call, which the
    code compares with nothing.  [subscribe] is called for the document
    stored for the field unless an error is thrown before it is reached.
    When the execution is a live stream the answer is the new identifier,
    stored with the same field name and target; when it is a terminal result
    the answer is that result; when an awaited call fails the failure goes on
    to the caller; in the last two cases no session takes the place of the
    old one.  Whenever the new identifier differs from the old one, the old
    one then fails both [stop] and [update] with UnknownSessionId. *)
Theorem update_replaces_session id' execution event req res m client op :
  clients m !! update_id event = Some client ->
  operations m !! client_name client = Some op ->
  exists m1 m',
    stop (update_id event) m = (Normal (update_id event), m1)
    /\ clients m1 = delete (update_id event) (clients m)
    /\ update parseVariable id' execution event req res m
       = start parseVariable id' execution
               {| start_subscription := client_name client;
                  start_variables := update_variables event;
                  start_url := client_url client |}
               req res m1
    /\ snd (update parseVariable id' execution event req res m) = m'
    /\ (forall e, execution = Thrown e -> effects m' = effects m1)
    /\ ((forall e, execution <> Thrown e) ->
        exists args,
          effects m' = (effects m1 ++ [Subscribed args])%list
          /\ subscribe_document args = built_document op
          /\ subscribe_operationName args = built_operationName op)
    /\ (forall iterator,
          execution = AsyncIterable iterator ->
          fst (update parseVariable id' execution event req res m)
          = Normal (Started id')
          /\ clients m'
             = <[id' := {| client_name := client_name client;
                           client_url := client_url client;
                           client_iterator := iterator |}]>
                 (delete (update_id event) (clients m)))
    /\ (forall result,
          execution = ExecutionResult result ->
          fst (update parseVariable id' execution event req res m)
          = Normal (Terminal result)
          /\ clients m' = delete (update_id event) (clients m))
    /\ (forall e,
          execution = Thrown e \/ execution = Rejected e ->
          fst (update parseVariable id' execution event req res m) = Throw e
          /\ clients m' = delete (update_id event) (clients m))
    /\ (id' <> update_id event ->
        stop (update_id event) m' = (UnknownSessionId (update_id event), m')
        /\ forall id'' execution' variables' req' res',
             update parseVariable id'' execution'
                    {| update_id := update_id event;
                       update_variables := variables' |}
                    req' res' m'
             = (UnknownSessionId (update_id event), m')).
Proof.
  intros Hclient Hop.
  destruct (stop_present _ _ _ Hclient) as (m1 & Hstop & Hclients1 & Hops1 & _).
  set (restart := {| start_subscription := client_name client;
                     start_variables := update_variables event;
                     start_url := client_url client |}).
  assert (Hop1 : operations m1 !! start_subscription restart = Some op).
  { rewrite Hops1. exact Hop. }
  assert (Hupdate : update parseVariable id' execution event req res m
                    = start parseVariable id' execution restart req res m1).
  { unfold update. rewrite Hclient, (detachedStop_present _ _ _ Hclient), Hstop.
    reflexivity. }
  exists m1, (snd (start parseVariable id' execution restart req res m1)).
  rewrite Hupdate.
  split; [exact Hstop|]. split; [exact Hclients1|].
  split; [reflexivity|]. split; [reflexivity|].
  assert (Hlive : forall iterator,
            execution = AsyncIterable iterator ->
            fst (start parseVariable id' execution restart req res m1)
            = Normal (Started id')
            /\ clients (snd (start parseVariable id' execution restart req res m1))
               = <[id' := {| client_name := client_name client;
                             client_url := client_url client;
                             client_iterator := iterator |}]>
                   (delete (update_id event) (clients m))).
  { intros iterator ->.
    destruct (start_live id' iterator restart req res m1 op Hop1)
      as (m' & Hs & Hc & _). rewrite Hs. cbn [fst snd].
    split; [reflexivity|]. now rewrite Hc, Hclients1. }
  assert (Hterminal : forall result,
            execution = ExecutionResult result ->
            fst (start parseVariable id' execution restart req res m1)
            = Normal (Terminal result)
            /\ clients (snd (start parseVariable id' execution restart req res m1))
               = delete (update_id event) (clients m)).
  { intros result ->.
    destruct (start_terminal id' result restart req res m1 op Hop1)
      as (m' & Hs & Hc). rewrite Hs. cbn [fst snd].
    split; [reflexivity|]. now rewrite Hc. }
  assert (Hfailed : forall e,
            execution = Thrown e \/ execution = Rejected e ->
            fst (start parseVariable id' execution restart req res m1) = Throw e
            /\ clients (snd (start parseVariable id' execution restart req res m1))
               = delete (update_id event) (clients m)).
  { intros e [->| ->].
    - rewrite (start_thrown id' e restart req res m1 op Hop1). cbn [fst snd].
      split; [reflexivity|exact Hclients1].
    - destruct (start_rejected id' e restart req res m1 op Hop1)
        as (m' & Hs & Hc & _). rewrite Hs. cbn [fst snd].
      split; [reflexivity|]. now rewrite Hc. }
  split; [|split; [|split; [exact Hlive|split; [exact Hterminal|split; [exact Hfailed|]]]]].
  - intros e ->. now rewrite (start_thrown id' e restart req res m1 op Hop1).
  - intros Hreached. unfold start. rewrite Hop1. cbn.
    destruct execution as [iterator|result|e|e]; cbn.
    + eexists. split; [reflexivity|]. split; reflexivity.
    + eexists. split; [reflexivity|]. split; reflexivity.
    + now destruct (Hreached e).
    + eexists. split; [reflexivity|]. split; reflexivity.
  - intros Hne.
    assert (Hgone : clients (snd (start parseVariable id' execution restart req res m1))
                    !! update_id event = None).
    { destruct execution as [iterator|result|e|e].
      - destruct (Hlive iterator eq_refl) as [_ ->].
        rewrite lookup_insert_ne by exact Hne. apply lookup_delete_eq.
      - destruct (Hterminal result eq_refl) as [_ ->]. apply lookup_delete_eq.
      - destruct (Hfailed e (or_introl eq_refl)) as [_ ->]. apply lookup_delete_eq.
      - destruct (Hfailed e (or_intror eq_refl)) as [_ ->]. apply lookup_delete_eq. }
    split; [now apply stop_absent|].
    intros. unfold update. cbn. now rewrite Hgone.
Qed.

(** C5, as the code has it: [stop] has one behaviour for every caller.  On
    an identifier that is not in the store it fails with UnknownSessionId and
    changes nothing; when the pump is the caller, after completion or after
    an error, the failure is the rejection of a promise nobody awaits and the
    store stays as it was. *)
Theorem stop_unknown_for_every_caller id m :
  clients m !! id = None ->
  stop id m = (UnknownSessionId id, m)
  /\ pumpCompleted id m = emit (UnhandledRejection (doesNotExist id)) m
  /\ clients (pumpCompleted id m) = clients m
  /\ (forall e,
        pumpFailed id e m
        = emit (UnhandledRejection (doesNotExist id)) (emit (Logged e) m)
        /\ clients (pumpFailed id e m) = clients m).
Proof.
  intros H. split; [now apply stop_absent|].
  unfold pumpCompleted, pumpFailed.
  rewrite (detachedStop_absent id m H). repeat split.
  all: now rewrite detachedStop_absent.
Qed.

End ManagerFacts.

Lemma start_unknown_field_witness :
  start passValue "s1" (AsyncIterable stream)
        {| start_subscription := "typing"; start_variables := JsNull;
           start_url := "https://cb" |}
        JsNull JsNull messageManager
  = (Throw "Subscription 'typing' is not available", messageManager).
Proof.
  apply (start_unknown_field passValue "s1" (AsyncIterable stream)
           {| start_subscription := "typing"; start_variables := JsNull;
              start_url := "https://cb" |} JsNull JsNull messageManager).
  vm_compute. reflexivity.
Defined.

Lemma start_then_stop_witness :
  exists m1 m2 args,
    start passValue "s1" (AsyncIterable stream) startMessageAdded JsNull JsNull
          messageManager
    = (Normal (Started "s1"), m1)
    /\ size (clients m1) = S (size (clients messageManager))
    /\ clients m1 !! "s1" = Some {| client_name := "messageAdded";
                                    client_url := "https://cb";
                                    client_iterator := stream |}
    /\ (forall other, other <> "s1" ->
          clients m1 !! other = clients messageManager !! other)
    /\ effects m1 = (effects messageManager ++ [Subscribed args])%list
    /\ stop "s1" m1 = (Normal "s1", m2)
    /\ clients m2 = clients messageManager
    /\ stop "s1" m2 = (UnknownSessionId "s1", m2).
Proof.
  apply (start_then_stop passValue "s1" stream startMessageAdded JsNull JsNull
           messageManager
           {| built_operationName := "messageAddedSubscription";
              built_document := messageDocument;
              built_variables := [roomId] |}).
  - vm_compute. reflexivity.
  - vm_compute. reflexivity.
Defined.

(** ** The claims at the scenarios *)

(** Against C3, at [union SearchResult = User] with [User] in the Model Set and
    nothing ignored: the selection for the member [User], which is not the
    root, is not [{ id }]; it selects [id] and [name]. *)
Lemma union_member_model_not_collapsed :
  buildOperation searchSchema ["User"] [] 2 subscription "found" initialWalkState
  = Some (Normal searchDocument, initialWalkState)
  /\ selections <$> definitions searchDocument
     = [[ FieldNode "found" (Some [])
            (Some [ InlineFragmentNode "User" [ leaf "id"; leaf "name" ] ]) ]]
  /\ isObjectType searchSchema "User" = true
  /\ isModel ["User"] "User" = true
  /\ includes [] "User" = false
  /\ [ leaf "id"; leaf "name" ] <> [ idField ].
Proof.
  split; [vm_compute; reflexivity|].
  repeat split; try (vm_compute; reflexivity). discriminate.
Qed.


(** Against C5, at the session [s1], started and then stopped by its owner: when
    the pump of [s1] completes and calls [stop], the call fails, and the
    failure is left as an unhandled rejection. *)
Lemma pump_stop_after_removal_fails :
  clients stoppedManager !! "s1" = None
  /\ stop "s1" stoppedManager
     = (Throw "Subscription with ID 's1' does not exist", stoppedManager)
  /\ fst (stop "s1" stoppedManager) <> Normal "s1"
  /\ effects (pumpCompleted "s1" stoppedManager)
     = (effects stoppedManager
        ++ [UnhandledRejection "Subscription with ID 's1' does not exist"])%list.
Proof.
  repeat split; try (vm_compute; reflexivity). vm_compute. discriminate.
Qed.

(** Against C7, at the live session [s1]: when the restarted execution
    answers with a terminal result, [update] returns that result and no
    identifier, and the store is left without any session. *)
Lemma update_may_return_no_identifier :
  clients liveManager !! "s1"
  = Some {| client_name := "messageAdded"; client_url := "https://cb";
            client_iterator := stream |}
  /\ fst (update passValue "s2" (ExecutionResult executionErrors)
                 {| update_id := "s1";
                    update_variables := JsObject [("roomId", JsString "7")] |}
                 JsNull JsNull liveManager)
     = Normal (Terminal executionErrors)
  /\ fst (update passValue "s2" (ExecutionResult executionErrors)
                 {| update_id := "s1";
                    update_variables := JsObject [("roomId", JsString "7")] |}
                 JsNull JsNull liveManager)
     <> Normal (Started "s2")
  /\ clients (snd (update passValue "s2" (ExecutionResult executionErrors)
                          {| update_id := "s1";
                             update_variables := JsObject [("roomId", JsString "7")] |}
                          JsNull JsNull liveManager))
     = ∅.
Proof.
  repeat split; try (vm_compute; reflexivity). vm_compute. discriminate.
Qed.

(** C1 at [start({ subscription: "messageAdded", variables: { roomId: "42" } })]:
    whatever [parseVariable] does, the variable values handed to [subscribe]
    have no entry [roomId]; the only key [execute] ever writes is the name of
    the subscription field. *)
Theorem start_binds_under_field_name parseVariable :
  exists args,
    effects (snd (start parseVariable "s1" (AsyncIterable stream)
                        startMessageAdded JsNull JsNull messageManager))
    = [Subscribed args]
    /\ subscribe_variableValues args !! "roomId" = None
    /\ dom (subscribe_variableValues args) ⊆ ({["messageAdded"]} : gset string).
Proof.
  eexists. split; [reflexivity|]. cbn. split.
  - now apply variableValues_other_key.
  - apply variableValues_dom.
Qed.

(** With a [parseVariable] that hands values on: what [start] passes, and
    what [execute] would bind if it were given the variables of the event. *)
Lemma start_passes_no_variable :
  variableValues passValue messageManager "messageAdded" (JsArray [JsNode roomId])
  = ∅.
Proof. vm_compute. reflexivity. Qed.

Lemma execute_keys_by_field_name :
  variableValues passValue messageManager "messageAdded"
                 (start_variables startMessageAdded)
  = {[ "messageAdded" := JsString "42" ]}.
Proof. vm_compute. reflexivity. Qed.

(** *** Instances *)

Lemma root_argument_names_witness :
  exists type field selectionSet rest,
    rootType snakeSchema subscription = Some type
    /\ findField snakeSchema type "messageAdded" = Some field
    /\ definitions snakeDocument
       = [ {| operation := subscription;
              operation_name :=
                buildOperationName ("messageAdded" +:+ "_" +:+ kindToString subscription);
              variableDefinitions := (rootVariables field ++ rest)%list;
              selections :=
                [ FieldNode (field_name field) (Some (rootArguments field))
                            selectionSet ] |} ]
    /\ map variable_name (rootVariables field) = map arg_name (field_args field)
    /\ map argument_variable (rootArguments field)
       = map (fun arg => ChangeCase.camel (arg_name arg)) (field_args field)
    /\ Forall2 (fun definition reference =>
                  variable_name definition = argument_variable reference
                  <-> ChangeCase.camel (argument_name reference)
                      = argument_name reference)
               (rootVariables field) (rootArguments field).
Proof.
  apply (root_argument_names snakeSchema [] [] 2 subscription "messageAdded"
           initialWalkState snakeDocument
           {| operationVariables := []; visitedTypes := {[ "Message" := false ]} |}).
  vm_compute. reflexivity.
Defined.

Lemma model_references_collapse_witness :
  exists type field args selectionSet op,
    rootType (messageSchema []) subscription = Some type
    /\ findField (messageSchema []) type "messageAdded" = Some field
    /\ definitions messageDocument = [op]
    /\ selections op = [FieldNode (field_name field) args selectionSet]
    /\ (forall sels, selectionSet = Some sels ->
          Forall (Collapsed (messageSchema []) ["User"] []
                            (getNamedType (field_type field))) sels)
    /\ (forall fields,
          getType (messageSchema []) (getNamedType (field_type field))
          = ObjectType fields ->
          exists sels,
            selectionSet = Some sels
            /\ map selectionName sels
               = map field_name
                   (List.filter
                      (fun f => negb (found (visitedTypes initialWalkState)
                                            (typeToString (field_type f))))
                      fields)).
Proof.
  apply (model_references_collapse (messageSchema []) ["User"] [] 2 subscription
           "messageAdded" initialWalkState messageDocument
           {| operationVariables := []; visitedTypes := {[ "Message" := false ]} |}).
  vm_compute. reflexivity.
Defined.


Lemma update_replaces_session_witness :
  let updated :=
    update passValue "s2" (AsyncIterable stream)
           {| update_id := "s1";
              update_variables := JsObject [("roomId", JsString "7")] |}
           JsNull JsNull liveManager in
  fst updated = Normal (Started "s2")
  /\ stop "s1" (snd updated) = (UnknownSessionId "s1", snd updated).
Proof.
  intros updated.
  destruct (update_replaces_session passValue "s2" (AsyncIterable stream)
              {| update_id := "s1";
                 update_variables := JsObject [("roomId", JsString "7")] |}
              JsNull JsNull liveManager
              {| client_name := "messageAdded"; client_url := "https://cb";
                 client_iterator := stream |}
              {| built_operationName := "messageAddedSubscription";
                 built_document := messageDocument;
                 built_variables := [roomId] |})
    as (m1 & m' & _ & _ & _ & Hm' & _ & _ & Hlive & _ & _ & Hold).
  - vm_compute. reflexivity.
  - vm_compute. reflexivity.
  - split.
    + apply (Hlive stream). reflexivity.
    + unfold updated. rewrite Hm'. apply Hold. discriminate.
Defined.

Lemma stop_unknown_for_every_caller_witness :
  stop "s1" stoppedManager = (UnknownSessionId "s1", stoppedManager)
  /\ clients (pumpCompleted "s1" stoppedManager) = clients stoppedManager.
Proof.
  destruct (stop_unknown_for_every_caller "s1" stoppedManager)
    as (Hstop & _ & Hclients & _).
  - vm_compute. reflexivity.
  - split; assumption.
Defined.

(** * Further properties of the code *)

Import Cases.

(** ** The synthesizer *)

Lemma map_flat_map {A B C} (f : B -> C) (g : A -> list B) (l : list A) :
  map f (flat_map g l) = flat_map (fun x => map f (g x)) l.
Proof.
  induction l as [|x l IH]; cbn; [reflexivity|]. now rewrite map_app, IH.
Qed.

Lemma argumentVariables_names path field :
  map variable_name (argumentVariables path field)
  = map definedName
        (map (fun arg => {| argument_name := arg_name arg;
                            argument_variable := getArgumentName (arg_name arg) path |})
             (field_args field)).
Proof. unfold argumentVariables. rewrite !map_map. reflexivity. Qed.

Section SynthesizerProperties.

Variable schema : GraphQLSchema.
Variable models : list string.
Variable ignore : list string.

Lemma resolveSelectionSet_accumulates rec parent type firstCall path st selectionSet st' :
  (forall t field p s sel s',
     rec t field false p s = Some (sel, s') ->
     exists vars, operationVariables s' = (operationVariables s ++ vars)%list
                  /\ map variable_name vars = map definedName (selectionArguments sel)) ->
  resolveSelectionSet schema models ignore rec parent type firstCall path st
  = Some (selectionSet, st') ->
  exists vars,
    operationVariables st' = (operationVariables st ++ vars)%list
    /\ map variable_name vars
       = map definedName (flat_map selectionArguments (default [] selectionSet)).
Proof.
  intros Hrec H.
  apply resolveSelectionSet_inv in H
    as [(types & frags & Ht & -> & H)
       |[(fields & Ht & Hc & -> & ->)
        |[(fields & sels & st2 & Ht & Hc & H & -> & ->)
         |(_ & _ & -> & ->)]]].
  - cbn [default]. rewrite map_flat_map.
    eapply wmap_accumulates; [|exact H].
    intros t s frag s' _ Hfrag.
    apply wbind_inv in Hfrag as (sels & s1 & Hsels & Hfrag).
    injection Hfrag as <- <-. cbn [selectionArguments]. rewrite map_flat_map.
    eapply wmap_accumulates; [|exact Hsels].
    intros field s0 sel s0' _ Hsel. eapply Hrec, Hsel.
  - exists []. cbn. now rewrite app_nil_r.
  - cbn [default]. rewrite map_flat_map.
    destruct (wmap_accumulates _ (fun sel => map definedName (selectionArguments sel))
                _ (fun field s0 sel s0' _ Hsel => Hrec _ _ _ _ _ _ Hsel)
                _ _ _ H) as (vars & E & N).
    exists vars. split; [exact E|exact N].
  - exists []. cbn. now rewrite app_nil_r.
Qed.

Lemma resolveField_accumulates n type field firstCall path st sel st' :
  resolveField schema models ignore n type field firstCall path st = Some (sel, st') ->
  exists vars,
    operationVariables st' = (operationVariables st ++ vars)%list
    /\ map variable_name vars
       = map definedName
             (if firstCall then nestedArguments sel else selectionArguments sel).
Proof.
  revert type field firstCall path st sel st'.
  induction n as [|n IH]; intros type field firstCall path st sel st' H;
    [discriminate|].
  apply resolveField_inv in H as (ss & -> & [(_ & -> & ->)|(_ & H)]).
  - destruct firstCall; cbn.
    + exists []. now rewrite app_nil_r.
    + exists (argumentVariables path field). split; [reflexivity|].
      rewrite app_nil_r. apply argumentVariables_names.
  - eapply resolveSelectionSet_accumulates in H.
    2: { intros t f p s sel s' Hsel. apply (IH _ _ false _ _ _ _ Hsel). }
    destruct H as (vars & E & N). destruct firstCall.
    + exists vars. split.
      * rewrite E. cbn. now rewrite app_nil_r.
      * rewrite N. now destruct ss.
    + exists (argumentVariables path field ++ vars)%list. split.
      * rewrite E. cbn. now rewrite app_assoc.
      * rewrite map_app, N, argumentVariables_names. cbn [selectionArguments default].
        rewrite map_app. now destruct ss.
Qed.

(** X1: in a synthesized document the variable definitions are, in order,
    one for each argument of the root selection, named by the argument, and
    then one for each argument below the root in document order, named by
    the variable the argument refers to (by the argument's own name when
    that reference is empty). *)
Theorem variables_follow_arguments fuel kind fieldName st document st' :
  buildOperation schema models ignore fuel kind fieldName st
  = Some (Normal document, st') ->
  exists op root,
    definitions document = [op]
    /\ selections op = [root]
    /\ map variable_name (variableDefinitions op)
       = (map argument_name (ownArguments root)
          ++ map definedName (nestedArguments root))%list.
Proof.
  intros H.
  apply buildOperation_inv in H
    as [([=] & _)|(type & field & sel & st2 & _ & _ & Hsel & [= ->] & _)].
  eexists _, sel. split; [reflexivity|]. split; [reflexivity|]. cbn.
  destruct (resolveField_accumulates _ _ _ _ _ _ _ _ Hsel) as (vars & E & N).
  rewrite E. cbn. rewrite map_app, N. f_equal.
  destruct fuel as [|n]; [discriminate|].
  apply resolveField_inv in Hsel as (ss & -> & _). cbn.
  unfold rootVariables. rewrite !map_map. reflexivity.
Qed.

(** X2: [buildOperation] throws a TypeError, leaving the accumulator empty
    and the visited record untouched, when the schema has no root type of
    the kind or the root type has no field of the name; a walk that comes to
    its end throws in no other case.  A walk that recurses without bound has
    no result here: the source then ends with a RangeError, which this
    statement does not cover. *)
Theorem buildOperation_unknown_field fuel kind fieldName st :
  let missing :=
    rootType schema kind = None
    \/ exists type, rootType schema kind = Some type
                    /\ findField schema type fieldName = None in
  (missing ->
   buildOperation schema models ignore fuel kind fieldName st
   = Some (Throw "TypeError", resetVariables st))
  /\ (forall e st',
        buildOperation schema models ignore fuel kind fieldName st
        = Some (Throw e, st') ->
        missing /\ e = "TypeError" /\ st' = resetVariables st).
Proof.
  split.
  - intros Hmiss. unfold buildOperation, buildDocumentNode, wbind. cbn.
    destruct Hmiss as [->|(type & -> & ->)]; reflexivity.
  - intros e st' H.
    apply buildOperation_inv in H
      as [([= ->] & -> & Hmiss)|(type & field & sel & st2 & _ & _ & _ & [=] & _)].
    now repeat split.
Qed.

(** X3: a synthesized document has exactly one operation definition, of
    the requested kind, named by camel-casing [field_kind], whose only root
    selection is a field selection named as the requested field. *)
Theorem document_shape fuel kind fieldName st document st' :
  buildOperation schema models ignore fuel kind fieldName st
  = Some (Normal document, st') ->
  exists variables arguments selectionSet,
    document
    = {| definitions :=
           [ {| operation := kind;
                operation_name :=
                  ChangeCase.camel (fieldName +:+ "_" +:+ kindToString kind);
                variableDefinitions := variables;
                selections := [FieldNode fieldName arguments selectionSet] |} ] |}.
Proof.
  intros H.
  destruct (buildOperation_root _ _ _ _ _ _ _ _ _ H)
    as (type & field & ss & rest & _ & Hfield & Hdefs).
  apply find_some in Hfield as [_ Hname]. apply String.eqb_eq in Hname.
  destruct document as [defs]. cbn in Hdefs. subst defs.
  rewrite Hname. now eexists _, _, _.
Qed.

(** X4: when [buildOperation] returns a document or throws its TypeError,
    the accumulator is empty and no type is marked visited that was not
    marked before the call.  A walk that recurses without bound has no
    result here: the source then ends with a RangeError in the middle of an
    expansion, which this statement does not cover. *)
Theorem buildOperation_leaves_state_clean fuel kind fieldName st result st' :
  buildOperation schema models ignore fuel kind fieldName st = Some (result, st') ->
  operationVariables st' = []
  /\ forall key, found (visitedTypes st') key = true ->
                 found (visitedTypes st) key = true.
Proof.
  intros H.
  apply buildOperation_inv in H
    as [(_ & -> & _)|(type & field & sel & st2 & _ & _ & Hsel & _ & ->)].
  - split; [reflexivity|]. now intros key.
  - split; [reflexivity|]. intros key. cbn.
    apply resolveField_unwinds in Hsel as [_ Hres].
    destruct (Hres key) as [Hk|[Hk _]]; unfold found; rewrite Hk; [easy|discriminate].
Qed.

(** X5: a field whose named type is neither an object type nor a union (a
    scalar, an enum, an interface, an input type) is emitted without a
    selection set; the walk goes no deeper and changes the state only by the
    variables of the field's own arguments. *)
Theorem leaf_field n type field firstCall path st :
  isObjectType schema (getNamedType (field_type field)) = false ->
  isUnionType schema (getNamedType (field_type field)) = false ->
  resolveField schema models ignore (S n) type field firstCall path st
  = Some (FieldNode (field_name field)
            (Some (map (fun arg =>
                          {| argument_name := arg_name arg;
                             argument_variable := getArgumentName (arg_name arg) path |})
                       (field_args field)))
            None,
          pushVariables (if firstCall then [] else argumentVariables path field) st).
Proof.
  intros Ho Hu. cbn [resolveField]. unfold wbind at 1. rewrite resolveArguments.
  unfold isObjectType in Ho. unfold isUnionType in Hu.
  unfold isScalarType, resolveSelectionSet, wbind, wret.
  destruct (getType schema (getNamedType (field_type field))); try discriminate;
    reflexivity.
Qed.

(** X6: for a union the selection set has one inline fragment for each
    member type, in the order of the members, and each fragment has one
    selection for each field of its member, in the order of the fields;
    neither the Model Set, the Ignore Set nor the visited record is
    consulted. *)
Theorem union_enumerates_members n parent type types firstCall path st selectionSet st' :
  getType schema type = UnionType types ->
  resolveSelectionSet schema models ignore (resolveField schema models ignore n)
                      parent type firstCall path st
  = Some (selectionSet, st') ->
  exists frags,
    selectionSet = Some frags
    /\ Forall2 (fun t frag =>
                  exists sels,
                    frag = InlineFragmentNode t sels
                    /\ map selectionName sels = map field_name (getFields schema t))
               types frags.
Proof.
  intros Ht H.
  apply resolveSelectionSet_inv in H
    as [(types' & frags & Ht' & -> & H)
       |[(fields & Ht' & _)
        |[(fields & sels & st2 & Ht' & _)
         |(_ & Hu & _)]]]; try congruence.
  2: { unfold isUnionType in Hu. now rewrite Ht in Hu. }
  assert (types' = types) as -> by congruence.
  exists frags. split; [reflexivity|].
  eapply (wmap_invariant (fun _ _ => True)); [..|exact H]; [easy|easy|].
  intros t s frag s' _ Hfrag. split; [exact I|].
  apply wbind_inv in Hfrag as (sels & s1 & Hsels & Hfrag).
  injection Hfrag as <- <-. exists sels. split; [reflexivity|].
  eapply Forall2_names.
  eapply (wmap_invariant (fun _ _ => True)); [..|exact Hsels]; [easy|easy|].
  intros f s0 sel s0' _ Hf. split; [exact I|]. eapply resolveField_name, Hf.
Qed.

(** X7: an object type that is not collapsed (the root, a type outside the
    Model Set, or an ignored one) is expanded into one selection for each of
    its fields whose printed type is not marked visited, in the order of the
    fields (none, when all are marked); on return the type itself is not
    marked. *)
Theorem expansion_selects_unvisited_fields
    n parent type fields firstCall path st selectionSet st' :
  getType schema type = ObjectType fields ->
  firstCall = true \/ isModel models type = false
  \/ isIgnored ignore parent type path = true ->
  resolveSelectionSet schema models ignore (resolveField schema models ignore n)
                      parent type firstCall path st
  = Some (selectionSet, st') ->
  exists sels,
    selectionSet = Some sels
    /\ map selectionName sels = map field_name (unvisited st fields)
    /\ found (visitedTypes st') type = false.
Proof.
  intros Ht Hcond H.
  apply resolveSelectionSet_inv in H
    as [(types & frags & Ht' & _)
       |[(fields' & Ht' & Hc & _)
        |[(fields' & sels & st2 & Ht' & Hc & H & -> & ->)
         |(Ho & _)]]]; try congruence.
  - exfalso. destruct Hcond as [->|[E|E]]; rewrite ?E in Hc;
      try discriminate; rewrite ?andb_false_r in Hc; discriminate.
  - assert (fields' = fields) as -> by congruence.
    exists sels. split; [reflexivity|]. split.
    + eapply Forall2_names.
      eapply (wmap_invariant (fun _ _ => True)); [..|exact H]; [easy|easy|].
      intros f s0 sel s0' _ Hf. split; [exact I|]. eapply resolveField_name, Hf.
    + cbn. rewrite found_insert. now destruct (decide (type = type)).
  - unfold isObjectType in Ho. now rewrite Ht in Ho.
Qed.

End SynthesizerProperties.

(** X8: [resolveVariableType] translates an argument's type wrapper for
    wrapper.  Reading the type node back, a list node as a list type, a
    non-null node as a non-null type and a named node as the type of that
    name, gives the argument's type; every type node is the translation of
    the type it denotes; so two argument types have the same type node
    exactly when they are the same type. *)
Theorem resolveVariableType_faithful :
  (forall type, typeOfNode (resolveVariableType type) = type)
  /\ (forall node, resolveVariableType (typeOfNode node) = node)
  /\ (forall t1 t2, resolveVariableType t1 = resolveVariableType t2 <-> t1 = t2).
Proof.
  assert (Hback : forall type, typeOfNode (resolveVariableType type) = type).
  { intros t. induction t as [name|t IH|t IH]; cbn;
      [reflexivity|now rewrite IH..]. }
  split; [exact Hback|]. split.
  - intros n. induction n as [name|n IH|n IH]; cbn;
      [reflexivity|now rewrite IH..].
  - intros t1 t2. split; [|now intros ->].
    intros H. rewrite <- (Hback t1), <- (Hback t2). now rewrite H.
Qed.

(** ** The session manager *)

Lemma emit_clients e m : clients (emit e m) = clients m.
Proof. reflexivity. Qed.

Lemma Evolves_refl m : Evolves m m.
Proof.
  repeat split; [exists []; now rewrite app_nil_r|]. intros id client H. now left.
Qed.

Lemma Evolves_trans m1 m2 m3 : Evolves m1 m2 -> Evolves m2 m3 -> Evolves m1 m3.
Proof.
  intros (O1 & S1 & [e1 E1] & C1) (O2 & S2 & [e2 E2] & C2). repeat split.
  - congruence.
  - congruence.
  - exists (e1 ++ e2)%list. now rewrite E2, E1, app_assoc.
  - intros id client H. destruct (C2 id client H) as [H'|H'].
    + apply C1, H'.
    + right. now rewrite <- O1.
Qed.

Lemma Evolves_Consistent m m' : Evolves m m' -> Consistent m -> Consistent m'.
Proof.
  intros (Ho & _ & _ & Hcl) Hc id client H. rewrite Ho.
  destruct (Hcl id client H) as [H'|H']; [eapply Hc, H'|exact H'].
Qed.

Lemma Consistent_no_session m : clients m = ∅ -> Consistent m.
Proof. intros E id client H. now rewrite E, lookup_empty in H. Qed.

Lemma Evolves_emit e m : Evolves m (emit e m).
Proof. repeat split; [now exists [e]|]. intros id client H. now left. Qed.

Lemma Evolves_stop id m : Evolves m (snd (stop id m)).
Proof.
  unfold stop. destruct (clients m !! id) as [client|] eqn:H; [|apply Evolves_refl].
  destruct (iterator_return (client_iterator client)); cbn.
  - repeat split; [now eexists|]. intros id' c Hc. left.
    cbn in Hc. apply lookup_delete_Some in Hc. apply Hc.
  - repeat split; [exists []; now rewrite app_nil_r|]. intros id' c Hc. left.
    cbn in Hc. apply lookup_delete_Some in Hc. apply Hc.
Qed.

Lemma Evolves_detachedStop id m : Evolves m (detachedStop id m).
Proof.
  unfold detachedStop. pose proof (Evolves_stop id m) as H.
  destruct (stop id m) as [[r|e] m']; cbn in H; [exact H|].
  eapply Evolves_trans; [exact H|apply Evolves_emit].
Qed.

Section ManagerProperties.

Variable parseVariable : JsValue -> VariableDefinitionNode -> GraphQLSchema -> JsValue.

Lemma Evolves_start id execution event req res m :
  Evolves m (snd (start parseVariable id execution event req res m)).
Proof.
  unfold start.
  destruct (operations m !! start_subscription event) as [op|] eqn:Hop;
    [|apply Evolves_refl].
  destruct execution as [iterator|result|e|e]; cbn.
  - repeat split; [now eexists|]. intros id' c Hc. cbn in Hc.
    apply lookup_insert_Some in Hc as [[_ <-]|[_ Hc]]; [right|now left].
    cbn. now rewrite Hop.
  - apply Evolves_emit.
  - apply Evolves_refl.
  - apply Evolves_emit.
Qed.

Lemma Evolves_update id execution event req res m :
  Evolves m (snd (update parseVariable id execution event req res m)).
Proof.
  unfold update.
  destruct (clients m !! update_id event) as [client|]; [|apply Evolves_refl].
  eapply Evolves_trans; [apply Evolves_detachedStop|apply Evolves_start].
Qed.

Lemma Evolves_pumpValue id result delivered m :
  Evolves m (pumpValue id result delivered m).
Proof.
  unfold pumpValue, sendData, pumpFailed.
  destruct (clients m !! id) as [client|].
  - destruct delivered as [[]|e]; [apply Evolves_emit|].
    eapply Evolves_trans; [apply Evolves_emit|].
    eapply Evolves_trans; [apply Evolves_emit|apply Evolves_detachedStop].
  - eapply Evolves_trans; [apply Evolves_emit|apply Evolves_detachedStop].
Qed.

Lemma Evolves_step m ev : Evolves m (step parseVariable m ev).
Proof.
  destruct ev; cbn.
  - apply Evolves_start.
  - apply Evolves_stop.
  - apply Evolves_update.
  - apply Evolves_pumpValue.
  - apply Evolves_detachedStop.
  - eapply Evolves_trans; [apply Evolves_emit|apply Evolves_detachedStop].
Qed.

Lemma Evolves_run events m : Evolves m (run parseVariable m events).
Proof.
  revert m. induction events as [|ev events IH]; intros m; [apply Evolves_refl|].
  cbn. eapply Evolves_trans; [apply Evolves_step|apply IH].
Qed.

(** X9: whatever requests and pump events follow one another, the
    pre-built operations and the configuration stay as they are, the history
    of effects only grows, and every stored session keeps naming a field
    that has a pre-built operation. *)
Theorem run_keeps_manager_consistent m events :
  Consistent m ->
  Consistent (run parseVariable m events)
  /\ operations (run parseVariable m events) = operations m
  /\ sofa (run parseVariable m events) = sofa m
  /\ exists more, effects (run parseVariable m events) = (effects m ++ more)%list.
Proof.
  intros Hc. pose proof (Evolves_run events m) as He.
  split; [exact (Evolves_Consistent _ _ He Hc)|].
  destruct He as (Ho & Hs & He & _). now repeat split.
Qed.

(** X10: in a manager whose stored sessions all name pre-built fields,
    [update] on a stored identifier answers with what the restarted
    execution gives: the new identifier when it is a live stream, the result
    when it is terminal, and the error when [parseVariable], the context
    function or [subscribe] throws or rejects.  The old session has been
    removed in every case, so that after a terminal result or a failure no
    session stands in its place. *)
Theorem update_outcome_follows_execution id' execution event req res m client :
  Consistent m ->
  clients m !! update_id event = Some client ->
  fst (update parseVariable id' execution event req res m)
  = match execution with
    | AsyncIterable _ => Normal (Started id')
    | ExecutionResult result => Normal (Terminal result)
    | Thrown e => Throw e
    | Rejected e => Throw e
    end
  /\ clients (snd (update parseVariable id' execution event req res m))
     = match execution with
       | AsyncIterable iterator =>
           <[id' := {| client_name := client_name client;
                       client_url := client_url client;
                       client_iterator := iterator |}]>
             (delete (update_id event) (clients m))
       | _ => delete (update_id event) (clients m)
       end.
Proof.
  intros Hc Hclient. destruct (Hc _ _ Hclient) as [op Hop].
  unfold update. rewrite Hclient.
  rewrite (detachedStop_present _ _ _ Hclient).
  destruct (stop_present _ _ _ Hclient) as (m1 & -> & Hclients1 & Hops1 & _).
  cbn [snd]. unfold start. cbn [start_subscription]. rewrite Hops1, Hop.
  destruct execution as [iterator|result|e|e]; cbn;
    (split; [reflexivity|]); now rewrite Hclients1.
Qed.

(** X11: [stop] on a stored identifier succeeds, removes that session and
    no other, leaves the operations alone, and calls [return] on the
    session's stream exactly when the stream has such a method. *)
Theorem stop_removes_one_session id m client :
  clients m !! id = Some client ->
  exists m',
    stop id m = (Normal id, m')
    /\ clients m' !! id = None
    /\ (forall other, other <> id -> clients m' !! other = clients m !! other)
    /\ size (clients m) = S (size (clients m'))
    /\ operations m' = operations m
    /\ effects m'
       = (effects m
          ++ if iterator_return (client_iterator client)
             then [Returned (client_iterator client)] else [])%list.
Proof.
  intros H. unfold stop. rewrite H.
  assert (Hsize : size (clients m) = S (size (delete id (clients m)))).
  { rewrite <- (insert_delete_id (clients m) id client H) at 1.
    apply map_size_insert_None, lookup_delete_eq. }
  destruct (iterator_return (client_iterator client)); eexists; cbn;
    (split; [reflexivity|]); repeat split;
    try apply lookup_delete_eq; try exact Hsize;
    try (intros other Hne; now apply lookup_delete_ne);
    now rewrite app_nil_r.
Qed.

(** X12: when the execution answers with a terminal result, [start]
    returns that result and stores nothing; all it has done is call
    [subscribe] once, with the stored document, the stored operation name
    and the context value, which is the configured value or what the
    configured function makes of the request. *)
Theorem start_with_terminal_result id result event req res m op :
  operations m !! start_subscription event = Some op ->
  start parseVariable id (ExecutionResult result) event req res m
  = (Normal (Terminal result),
     emit (Subscribed
             {| subscribe_document := built_document op;
                subscribe_operationName := built_operationName op;
                subscribe_variableValues :=
                  variableValues parseVariable m (start_subscription event)
                                 (JsArray (map JsNode (built_variables op)));
                subscribe_contextValue :=
                  match sofa_context (sofa m) with
                  | ContextFn fn => fn req res
                  | ContextValue value => value
                  end |}) m)
  /\ clients (snd (start parseVariable id (ExecutionResult result) event req res m))
     = clients m.
Proof.
  intros H. unfold start. rewrite H. cbn. split; reflexivity.
Qed.

(** X13: [update] with an identifier that is not in the store fails with
    UnknownSessionId and does nothing else: no session is stopped, none is
    started, [subscribe] is not called. *)
Theorem update_unknown_session id' execution event req res m :
  clients m !! update_id event = None ->
  update parseVariable id' execution event req res m
  = (Throw ("Subscription with ID '" +:+ update_id event +:+ "' does not exist"), m).
Proof. intros H. unfold update. now rewrite H. Qed.

Lemma bindVariables_last m name variables nodes values :
  fold_left (bindVariable parseVariable m name variables) nodes values
  = match last (parsedValues parseVariable m variables nodes) with
    | Some value => <[name := value]> values
    | None => values
    end.
Proof.
  revert values. induction nodes as [|node nodes IH]; intros values; [reflexivity|].
  cbn [fold_left]. rewrite IH. unfold parsedValues. cbn [map List.filter].
  unfold bindVariable.
  set (v := parseVariable (js_get variables (variable_name node)) node
                          (sofa_schema (sofa m))).
  set (rest := List.filter (fun value => negb (is_undefined value)) _).
  destruct (is_undefined v); cbn [negb]; [reflexivity|].
  rewrite last_cons. destruct (last rest); [apply insert_insert_eq|reflexivity].
Qed.

(** X14: the variable values [execute] hands to [subscribe] hold at most
    one entry, under the name of the subscription field: the value
    [parseVariable] gives for the last stored variable for which it is not
    undefined; every earlier one is overwritten. *)
Theorem variableValues_keeps_last_value m name variables op :
  operations m !! name = Some op ->
  variableValues parseVariable m name variables
  = match last (parsedValues parseVariable m variables (built_variables op)) with
    | Some value => {[ name := value ]}
    | None => ∅
    end.
Proof.
  intros H. unfold variableValues. rewrite H, bindVariables_last.
  destruct (last _); [apply insert_empty|reflexivity].
Qed.

(** X15: a value of the stream of a stored session is pushed once, to the
    session's callback target.  When the push succeeds nothing else happens;
    when it fails the error is logged, the session is removed and its stream
    is told to return. *)
Theorem pump_delivers_value id result delivered m client :
  clients m !! id = Some client ->
  match delivered with
  | Normal _ =>
      pumpValue id result delivered m = emit (Posted (client_url client) result) m
  | Throw e =>
      clients (pumpValue id result delivered m) = delete id (clients m)
      /\ effects (pumpValue id result delivered m)
         = (effects m
            ++ [Posted (client_url client) result; Logged e]
            ++ if iterator_return (client_iterator client)
               then [Returned (client_iterator client)] else [])%list
  end.
Proof.
  intros H. unfold pumpValue, sendData. rewrite H.
  destruct delivered as [[]|e]; [reflexivity|].
  unfold pumpFailed, detachedStop, stop. cbn. rewrite H.
  destruct (iterator_return (client_iterator client)); cbn;
    rewrite <- ?app_assoc; split; reflexivity.
Qed.

(** X16: a value of the stream of a session that is no longer stored is
    not pushed anywhere: [sendData] fails, the failure is logged, and the
    [stop] that follows fails too, unobserved; the store is as it was. *)
Theorem pump_value_of_removed_session id result delivered m :
  clients m !! id = None ->
  sendData id result delivered m = (UnknownSessionId id, m)
  /\ clients (pumpValue id result delivered m) = clients m
  /\ effects (pumpValue id result delivered m)
     = (effects m ++ [Logged (doesNotExist id);
                      UnhandledRejection (doesNotExist id)])%list.
Proof.
  intros H. unfold pumpValue, sendData. rewrite H. cbn.
  unfold pumpFailed, detachedStop, stop. cbn. rewrite H. cbn.
  rewrite <- app_assoc. repeat split.
Qed.

(** X17: a session whose stream completes before anyone stops it is
    removed by its pump: after [start] with a fresh identifier and the
    completion of the stream the store is what it was before, the stream has
    been told to return if it can be, and no failure is left behind. *)
Theorem completed_session_is_removed id iterator event req res m op :
  operations m !! start_subscription event = Some op ->
  clients m !! id = None ->
  let m1 := snd (start parseVariable id (AsyncIterable iterator) event req res m) in
  clients (pumpCompleted id m1) = clients m
  /\ exists args,
       effects (pumpCompleted id m1)
       = (effects m ++ [Subscribed args]
          ++ if iterator_return iterator then [Returned iterator] else [])%list.
Proof.
  intros Hop Hfresh. unfold start. rewrite Hop. cbn.
  unfold pumpCompleted, detachedStop, stop. cbn. rewrite lookup_insert_eq. cbn.
  split.
  - destruct (iterator_return iterator); cbn;
      rewrite delete_insert_eq; now apply delete_id.
  - eexists. destruct (iterator_return iterator); cbn;
      rewrite <- ?app_assoc; reflexivity.
Qed.

End ManagerProperties.

(** ** Construction *)

Lemma buildOperationsLoop_inv fuel s fields acc st ops st' :
  buildOperationsLoop fuel s fields acc st = Some (Normal ops, st') ->
  dom ops = dom acc ∪ list_to_set (map field_name fields)
  /\ forall name op,
       ops !! name = Some op ->
       acc !! name = Some op
       \/ exists st1 st2,
            buildOperation (sofa_schema s) (sofa_models s) (sofa_ignore s) fuel
                           subscription name st1
            = Some (Normal (built_document op), st2).
Proof.
  revert acc st. induction fields as [|field fields IH]; intros acc st H.
  - injection H as <- <-. split; [|intros name op Hop; now left].
    cbn. now rewrite (right_id_L ∅ (∪)).
  - cbn [buildOperationsLoop] in H.
    apply wbind_inv in H as ([document|e] & st1 & Hdoc & H); [|discriminate].
    destruct (getOperationInfo document) as [[operationName variables]|];
      [|discriminate].
    apply IH in H as [Hdom Hops]. split.
    + rewrite Hdom, dom_insert_L. cbn.
      now rewrite (comm_L (∪) {[field_name field]} (dom acc)), <- (assoc_L (∪)).
    + intros name op Hop. destruct (Hops name op Hop) as [Hacc|Hbuilt];
        [|now right].
      apply lookup_insert_Some in Hacc as [[<- <-]|[_ Hacc]]; [right|now left].
      now exists st, st1.
Qed.

(** X18: when the constructor returns, the manager has one pre-built
    operation for each field of the schema's subscription type and for
    nothing else (none at all when the schema has no subscription type),
    each holding a document that [buildOperation] synthesized for that field
    as a subscription; it has no session and has had no effect on the
    outside. *)
Theorem constructor_prebuilds_operations fuel s st m st' :
  newSubscriptionManager fuel s st = Some (Normal m, st') ->
  sofa m = s
  /\ clients m = ∅
  /\ effects m = []
  /\ dom (operations m)
     = match subscriptionType (sofa_schema s) with
       | Some type => list_to_set (map field_name (getFields (sofa_schema s) type))
       | None => ∅
       end
  /\ forall name op,
       operations m !! name = Some op ->
       exists st1 st2,
         buildOperation (sofa_schema s) (sofa_models s) (sofa_ignore s) fuel
                        subscription name st1
         = Some (Normal (built_document op), st2).
Proof.
  unfold newSubscriptionManager, buildOperations. intros H.
  apply wbind_inv in H as ([ops|e] & st1 & Hops & H); [|discriminate].
  injection H as <- <-. cbn. repeat split.
  - destruct (subscriptionType (sofa_schema s)) as [type|].
    + apply buildOperationsLoop_inv in Hops as [Hdom _].
      rewrite Hdom, dom_empty_L. apply (left_id_L ∅ (∪)).
    + injection Hops as <- <-. apply dom_empty_L.
  - intros name op Hop.
    destruct (subscriptionType (sofa_schema s)) as [type|].
    + apply buildOperationsLoop_inv in Hops as [_ Hall].
      destruct (Hall name op Hop) as [Hacc|Hbuilt]; [|exact Hbuilt].
      now rewrite lookup_empty in Hacc.
    + injection Hops as <- <-. now rewrite lookup_empty in Hop.
Qed.

(** ** Instances of the further properties *)

Lemma variables_follow_arguments_witness :
  exists op root,
    definitions pagedDocument = [op]
    /\ selections op = [root]
    /\ map variable_name (variableDefinitions op)
       = (map argument_name (ownArguments root)
          ++ map definedName (nestedArguments root))%list.
Proof.
  apply (variables_follow_arguments pagedSchema [] [] 3 subscription "feed"
           initialWalkState pagedDocument
           {| operationVariables := [];
              visitedTypes := {[ "Feed" := false; "Item" := false ]} |}).
  vm_compute. reflexivity.
Defined.

Lemma buildOperation_unknown_field_witness :
  buildOperation statusSchema [] [] 3 subscription "typing" initialWalkState
  = Some (Throw "TypeError", resetVariables initialWalkState).
Proof.
  apply (buildOperation_unknown_field statusSchema [] [] 3 subscription "typing"
           initialWalkState).
  right. exists "Subscription". split; vm_compute; reflexivity.
Defined.

Lemma document_shape_witness :
  exists variables arguments selectionSet,
    pagedDocument
    = {| definitions :=
           [ {| operation := subscription;
                operation_name :=
                  ChangeCase.camel ("feed" +:+ "_" +:+ kindToString subscription);
                variableDefinitions := variables;
                selections := [FieldNode "feed" arguments selectionSet] |} ] |}.
Proof.
  apply (document_shape pagedSchema [] [] 3 subscription "feed"
           initialWalkState pagedDocument
           {| operationVariables := [];
              visitedTypes := {[ "Feed" := false; "Item" := false ]} |}).
  vm_compute. reflexivity.
Defined.

Lemma buildOperation_leaves_state_clean_witness :
  let st' := {| operationVariables := [];
                visitedTypes := {[ "Feed" := false; "Item" := false ]} |} in
  operationVariables st' = []
  /\ forall key,
       found (visitedTypes st') key = true ->
       found (visitedTypes initialWalkState) key = true.
Proof.
  intros st'.
  apply (buildOperation_leaves_state_clean pagedSchema [] [] 3 subscription "feed"
           initialWalkState (Normal pagedDocument)
           {| operationVariables := [];
              visitedTypes := {[ "Feed" := false; "Item" := false ]} |}).
  vm_compute. reflexivity.
Defined.

Lemma leaf_field_witness :
  resolveField statusSchema [] [] 1 "Subscription" node true [] initialWalkState
  = Some (FieldNode "node" (Some []) None, pushVariables [] initialWalkState).
Proof.
  apply (leaf_field statusSchema [] [] 0 "Subscription" node true []
           initialWalkState); vm_compute; reflexivity.
Defined.

Lemma union_enumerates_members_witness :
  exists frags,
    Some [ InlineFragmentNode "User" [ leaf "id"; leaf "name" ] ] = Some frags
    /\ Forall2 (fun t frag =>
                  exists sels,
                    frag = InlineFragmentNode t sels
                    /\ map selectionName sels
                       = map field_name (getFields searchSchema t))
               ["User"] frags.
Proof.
  apply (union_enumerates_members searchSchema ["User"] [] 1 "Subscription"
           "SearchResult" ["User"] true ["found"] initialWalkState
           (Some [ InlineFragmentNode "User" [ leaf "id"; leaf "name" ] ])
           initialWalkState); vm_compute; reflexivity.
Defined.

Lemma expansion_selects_unvisited_fields_witness :
  let st' := {| operationVariables := [];
                visitedTypes := {[ "A" := false; "B" := false ]} |} in
  exists sels,
    Some [ leaf "id"; FieldNode "b" (Some []) (Some [ leaf "id" ]) ] = Some sels
    /\ map selectionName sels
       = map field_name
           (unvisited initialWalkState
              [ plain "id" (NamedType "ID"); plain "b" (NamedType "B") ])
    /\ found (visitedTypes st') "A" = false.
Proof.
  intros st'.
  apply (expansion_selects_unvisited_fields cyclicSchema [] [] 2 "Subscription" "A"
           [ plain "id" (NamedType "ID"); plain "b" (NamedType "B") ]
           true ["a"] initialWalkState
           (Some [ leaf "id"; FieldNode "b" (Some []) (Some [ leaf "id" ]) ])
           st').
  - vm_compute. reflexivity.
  - now left.
  - vm_compute. reflexivity.
Defined.

Lemma run_keeps_manager_consistent_witness :
  Consistent (run passValue messageManager
                  [ OnStart "s1" (AsyncIterable stream) startMessageAdded JsNull JsNull;
                    OnValue "s1" (JsString "hello") (Normal tt);
                    OnStop "s1";
                    OnCompleted "s1" ]).
Proof.
  apply (run_keeps_manager_consistent passValue messageManager).
  now apply Consistent_no_session.
Defined.

Lemma update_outcome_follows_execution_witness :
  let updated :=
    update passValue "s2" (Rejected "Network error")
           {| update_id := "s1"; update_variables := JsNull |}
           JsNull JsNull liveManager in
  fst updated = Throw "Network error"
  /\ clients (snd updated) = delete "s1" (clients liveManager).
Proof.
  apply (update_outcome_follows_execution passValue "s2" (Rejected "Network error")
           {| update_id := "s1"; update_variables := JsNull |}
           JsNull JsNull liveManager
           {| client_name := "messageAdded"; client_url := "https://cb";
              client_iterator := stream |}).
  - apply (Evolves_Consistent messageManager), Consistent_no_session;
      [apply Evolves_start|reflexivity].
  - vm_compute. reflexivity.
Defined.

Lemma stop_removes_one_session_witness :
  exists m',
    stop "s1" twoSessions = (Normal "s1", m')
    /\ clients m' !! "s1" = None
    /\ (forall other, other <> "s1" ->
          clients m' !! other = clients twoSessions !! other)
    /\ size (clients twoSessions) = S (size (clients m'))
    /\ operations m' = operations twoSessions
    /\ effects m' = (effects twoSessions ++ [Returned stream])%list.
Proof.
  apply (stop_removes_one_session "s1" twoSessions
           {| client_name := "messageAdded"; client_url := "https://cb";
              client_iterator := stream |}).
  vm_compute. reflexivity.
Defined.

Lemma start_with_terminal_result_witness :
  clients (snd (start passValue "s1" (ExecutionResult executionErrors)
                      startMessageAdded JsNull JsNull messageManager))
  = clients messageManager.
Proof.
  apply (start_with_terminal_result passValue "s1" executionErrors
           startMessageAdded JsNull JsNull messageManager
           {| built_operationName := "messageAddedSubscription";
              built_document := messageDocument;
              built_variables := [roomId] |}).
  vm_compute. reflexivity.
Defined.

Lemma update_unknown_session_witness :
  update passValue "s2" (AsyncIterable stream)
         {| update_id := "s1"; update_variables := JsNull |}
         JsNull JsNull stoppedManager
  = (Throw "Subscription with ID 's1' does not exist", stoppedManager).
Proof.
  apply (update_unknown_session passValue "s2" (AsyncIterable stream)
           {| update_id := "s1"; update_variables := JsNull |}
           JsNull JsNull stoppedManager).
  vm_compute. reflexivity.
Defined.

Lemma variableValues_keeps_last_value_witness :
  variableValues passValue twoVariables "messageAdded"
                 (JsObject [("roomId", JsString "42"); ("since", JsString "noon")])
  = {[ "messageAdded" := JsString "noon" ]}.
Proof.
  rewrite (variableValues_keeps_last_value passValue twoVariables "messageAdded"
             (JsObject [("roomId", JsString "42"); ("since", JsString "noon")])
             {| built_operationName := "messageAddedSubscription";
                built_document := messageDocument;
                built_variables :=
                  [ roomId;
                    {| variable_name := "since";
                       variable_type := NamedTypeNode "String" |} ] |}).
  - reflexivity.
  - vm_compute. reflexivity.
Defined.

Lemma pump_delivers_value_witness :
  clients (pumpValue "s1" (JsString "hello") (Throw "ECONNREFUSED") liveManager)
  = delete "s1" (clients liveManager)
  /\ effects (pumpValue "s1" (JsString "hello") (Throw "ECONNREFUSED") liveManager)
     = (effects liveManager
        ++ [Posted "https://cb" (JsString "hello"); Logged "ECONNREFUSED"]
        ++ [Returned stream])%list.
Proof.
  apply (pump_delivers_value "s1" (JsString "hello") (Throw "ECONNREFUSED")
           liveManager
           {| client_name := "messageAdded"; client_url := "https://cb";
              client_iterator := stream |}).
  vm_compute. reflexivity.
Defined.

Lemma pump_value_of_removed_session_witness :
  sendData "s1" (JsString "hello") (Normal tt) stoppedManager
  = (UnknownSessionId "s1", stoppedManager).
Proof.
  apply (pump_value_of_removed_session "s1" (JsString "hello") (Normal tt)
           stoppedManager).
  vm_compute. reflexivity.
Defined.

Lemma completed_session_is_removed_witness :
  clients (pumpCompleted "s1" liveManager) = clients messageManager.
Proof.
  apply (completed_session_is_removed passValue "s1" stream startMessageAdded
           JsNull JsNull messageManager
           {| built_operationName := "messageAddedSubscription";
              built_document := messageDocument;
              built_variables := [roomId] |}).
  - vm_compute. reflexivity.
  - vm_compute. reflexivity.
Defined.

Lemma constructor_prebuilds_operations_witness :
  dom (operations messageManager)
  = list_to_set (map field_name (getFields (sofa_schema messageSofa) "Subscription")).
Proof.
  apply (constructor_prebuilds_operations 2 messageSofa initialWalkState
           messageManager
           {| operationVariables := [];
              visitedTypes := {[ "Message" := false ]} |}).
  vm_compute. reflexivity.
Defined.
